(** * A shallow embedding of [utm.py], the Turing machine simulator

    The tape is the Python [Dict[int, str]] and is modelled by a [gmap Z string];
    the transition table is the [Dict[str, tuple]] built by [__init__] and is
    modelled by a [gmap string (list string)], so that the unpacking of a value
    that is not a triple can fail as it does in Python.  The [while] loop of
    [run] is a fuelled fixpoint over the local variables of the method. *)

From Stdlib Require Import ZArith String Ascii List Lia.
From stdpp Require Import gmap strings list fin_maps pretty.

Local Open Scope string_scope.
Local Open Scope Z_scope.

(** ** Data model *)

(** The attributes set by [TuringMachine.__init__] (lines 40-49). *)
Record TuringMachine : Type := mkTM {
  states : list string;
  alphabet : list string;
  blank : string;
  transitions : gmap string (list string);
  start : string;
  halt : string
}.

(** The only exception the body of [run] can raise: unpacking a transition
    value whose length is not three (line 74). *)
Inductive exn : Type :=
| ValueError.

(** The local variables of [run], together with the lines printed so far. *)
Record config : Type := mkConfig {
  c_tape : gmap Z string;
  c_head : Z;
  c_state : string;
  c_steps : Z;
  c_out : list string
}.

(** What one pass through the loop body does to the control flow. *)
Inductive iter : Type :=
| Next (c : config)
| Break
| Raise (e : exn).

(** How the loop was left: its condition became false, the [break] of line 73
    was taken, or an exception unwound it. *)
Inductive exit : Type :=
| LoopCond
| LoopBreak
| Unwound (e : exn).

(** What the caller of [run] receives. *)
Inductive result : Type :=
| Returned (tp : gmap Z string) (steps : Z) (state : string)
| Raised (e : exn).

(** ** The tape operations that [run] performs inline *)

(** [tape.get(head, self.blank)] (line 69). *)
Definition read_cell (m : TuringMachine) (tp : gmap Z string) (head : Z) : string :=
  default (blank m) (tp !! head).

(** Lines 81-85: writing the blank removes the entry. *)
Definition write_cell (m : TuringMachine) (tp : gmap Z string) (head : Z)
    (write_symbol : string) : gmap Z string :=
  if decide (write_symbol = blank m) then delete head tp
  else <[head := write_symbol]> tp.

(** Lines 87-91: only ['L'] and ['R'] move the head. *)
Definition move_head (move : string) (head : Z) : Z :=
  if decide (move = "L") then head - 1
  else if decide (move = "R") then head + 1
  else head.

(** The key [f"{state}:{symbol}"] of line 70. *)
Definition key_of (state symbol : string) : string :=
  state +:+ ":" +:+ symbol.

(** The line printed at lines 76-79. *)
Definition trace_line (steps : Z) (state : string) (head : Z)
    (symbol write_symbol move next_state : string) : string :=
  "[step " +:+ pretty steps +:+ "] state=" +:+ state +:+ " head=" +:+ pretty head
  +:+ " read=" +:+ symbol +:+ " -> write=" +:+ write_symbol
  +:+ " move=" +:+ move +:+ " next=" +:+ next_state.

(** ** The loop of [run] *)

(** The loop condition of line 68. *)
Definition loop_cond (m : TuringMachine) (max_steps : Z) (c : config) : bool :=
  bool_decide (c_state c ≠ halt m) && bool_decide (c_steps c < max_steps).

(** The loop body, lines 69-94. *)
Definition loop_body (m : TuringMachine) (trace : bool) (c : config) : iter :=
  let symbol := read_cell m (c_tape c) (c_head c) in
  let key := key_of (c_state c) symbol in
  match transitions m !! key with
  | None => Break
  | Some [next_state; write_symbol; move] =>
      Next {| c_tape := write_cell m (c_tape c) (c_head c) write_symbol;
              c_head := move_head move (c_head c);
              c_state := next_state;
              c_steps := c_steps c + 1;
              c_out :=
                if trace then
                  c_out c ++ [trace_line (c_steps c) (c_state c) (c_head c)
                                symbol write_symbol move next_state]
                else c_out c |}
  | Some _ => Raise ValueError
  end.

(** The [while] loop, lines 68-94.  [None] means that the fuel ran out before
    the loop was left. *)
Fixpoint run_loop (fuel : nat) (m : TuringMachine) (max_steps : Z) (trace : bool)
    (c : config) : option (exit * config) :=
  if loop_cond m max_steps c then
    match fuel with
    | O => None
    | S fuel' =>
        match loop_body m trace c with
        | Next c' => run_loop fuel' m max_steps trace c'
        | Break => Some (LoopBreak, c)
        | Raise e => Some (Unwound e, c)
        end
    end
  else Some (LoopCond, c).

(** Lines 65-67: the locals on entry to the loop. *)
Definition init (m : TuringMachine) (tp : gmap Z string) : config :=
  {| c_tape := tp; c_head := 0; c_state := start m; c_steps := 0; c_out := [] |}.

(** Line 95, or the exception that escaped. *)
Definition result_of (r : exit * config) : result :=
  match fst r with
  | Unwound e => Raised e
  | _ => Returned (c_tape (snd r)) (c_steps (snd r)) (c_state (snd r))
  end.

(** [TuringMachine.run]: the value handed to the caller and the lines printed.
    The loop body runs at most [max_steps] times, which is the fuel given. *)
Definition run (m : TuringMachine) (tp : gmap Z string) (max_steps : Z)
    (trace : bool) : option (result * list string) :=
  match run_loop (Z.to_nat max_steps) m max_steps trace (init m tp) with
  | Some r => Some (result_of r, c_out (snd r))
  | None => None
  end.

(** ** [parse_tape] and [tape_to_string] *)

(** A character of a Python string, as the one-character string [ch]. *)
Definition char (a : ascii) : string := String a EmptyString.

(** The loop of [parse_tape] (lines 101-103), from index [i] on. *)
Fixpoint parse_from (i : Z) (input_str : string) (blank : string)
    (tp : gmap Z string) : gmap Z string :=
  match input_str with
  | EmptyString => tp
  | String a rest =>
      parse_from (i + 1) rest blank
        (if decide (char a ≠ blank) then <[i := char a]> tp else tp)
  end.

Definition parse_tape (input_str : string) (blank : string) : gmap Z string :=
  parse_from 0 input_str blank ∅.

(** [tape.keys()]. *)
Definition keys (tp : gmap Z string) : list Z := (map_to_list tp).*1.

(** [''.join(xs)]. *)
Definition join (xs : list string) : string := foldr String.append "" xs.

(** [tape_to_string] (lines 109-113).  The first branch is [not tape]; in the
    second the key list is not empty, so [min] and [max] are defined. *)
Definition tape_to_string (tp : gmap Z string) (blank : string) : string :=
  match keys tp with
  | [] => ""
  | k :: ks =>
      let min_pos := foldr Z.min k ks in
      let max_pos := foldr Z.max k ks in
      join ((λ i, default blank (tp !! i)) <$> seqZ min_pos (max_pos + 1 - min_pos))
  end.

(** ** The machine of the unary incrementer scenario *)

Definition incrementer : TuringMachine :=
  {| states := ["add"; "done"];
     alphabet := ["1"; "B"];
     blank := "B";
     transitions :=
       <["add:1" := ["add"; "1"; "R"]]> (<["add:B" := ["done"; "1"; "S"]]> ∅);
     start := "add";
     halt := "done" |}.

(** A table is well formed when every value is a triple. *)
Definition well_formed (m : TuringMachine) : Prop :=
  map_Forall (λ _ v, length v = 3%nat) (transitions m).

(** The loop as a relation between the locals on entry and the way the loop
    is left, one rule per path through lines 68-94. *)
Inductive loop_exec (m : TuringMachine) (max_steps : Z) (trace : bool) :
    config → exit * config → Prop :=
| exec_cond c :
    loop_cond m max_steps c = false →
    loop_exec m max_steps trace c (LoopCond, c)
| exec_break c :
    loop_cond m max_steps c = true →
    loop_body m trace c = Break →
    loop_exec m max_steps trace c (LoopBreak, c)
| exec_raise c e :
    loop_cond m max_steps c = true →
    loop_body m trace c = Raise e →
    loop_exec m max_steps trace c (Unwound e, c)
| exec_next c c' r :
    loop_cond m max_steps c = true →
    loop_body m trace c = Next c' →
    loop_exec m max_steps trace c' r →
    loop_exec m max_steps trace c r.

(** An invocation of [run] as a relation. *)
Inductive runs (m : TuringMachine) (tp : gmap Z string) (max_steps : Z)
    (trace : bool) : result * list string → Prop :=
| runs_intro r :
    loop_exec m max_steps trace (init m tp) r →
    runs m tp max_steps trace (result_of r, c_out (snd r)).

(** Two configurations that differ at most in the lines printed. *)
Definition same_locals (c1 c2 : config) : Prop :=
  c_tape c1 = c_tape c2 ∧ c_head c1 = c_head c2
  ∧ c_state c1 = c_state c2 ∧ c_steps c1 = c_steps c2.

(** ** Notions used to state the properties *)

(** The representation invariant of the tape: no stored entry holds the
    blank symbol. *)
Definition tape_ok (blank : string) (tp : gmap Z string) : Prop :=
  map_Forall (λ _ v, v ≠ blank) tp.

(** The three ways in which [run] comes to its [return]. *)
Inductive termination : Type :=
| NormalHalt
| BudgetExceeded
| UndefinedTransition.

(** The condition through which the loop was left: the first or the second
    conjunct of line 68 was false, or the [break] of line 73 was taken. *)
Definition fired (m : TuringMachine) (r : exit * config) : option termination :=
  match fst r with
  | LoopCond =>
      if decide (c_state (snd r) = halt m) then Some NormalHalt
      else Some BudgetExceeded
  | LoopBreak => Some UndefinedTransition
  | Unwound _ => None
  end.

(** What a caller infers from the returned triple, comparing the state with
    [halt] and the step count with [max_steps]. *)
Definition classify (m : TuringMachine) (max_steps : Z) (res : result) :
    option termination :=
  match res with
  | Returned _ steps state =>
      if decide (state = halt m) then Some NormalHalt
      else if decide (steps = max_steps) then Some BudgetExceeded
      else Some UndefinedTransition
  | Raised _ => None
  end.

(** The second half of the monotonicity property as the specification words
    it, at a given machine, tape and pair of budgets: when the run with the
    smaller budget neither halted nor met an undefined transition, the run
    with the larger budget returns a step count equal to one of the budgets. *)
Definition budget_otherwise_claim (m : TuringMachine) (tp : gmap Z string)
    (m1 m2 : Z) (trace : bool) : Prop :=
  ∀ t1 s1 q1 out1,
    run m tp m1 trace = Some (Returned t1 s1 q1, out1) →
    ¬ (q1 = halt m ∨ s1 < m1) →
    ∃ t2 s2 q2 out2,
      run m tp m2 trace = Some (Returned t2 s2 q2, out2) ∧ (s2 = m1 ∨ s2 = m2).

(** The blank symbol is one of the characters of [s], in the sense in which
    [parse_tape] compares them (line 102). *)
Fixpoint has_symbol (b s : string) : Prop :=
  match s with
  | EmptyString => False
  | String a rest => char a = b ∨ has_symbol b rest
  end.

(** Every character of [s] is the blank symbol. *)
Fixpoint all_blank (b s : string) : Prop :=
  match s with
  | EmptyString => True
  | String a rest => char a = b ∧ all_blank b rest
  end.

(** [s] without its leading blanks. *)
Fixpoint lstrip (b s : string) : string :=
  match s with
  | EmptyString => EmptyString
  | String a rest => if decide (char a = b) then lstrip b rest else s
  end.

(** [s] without its trailing blanks. *)
Fixpoint rstrip (b s : string) : string :=
  match s with
  | EmptyString => EmptyString
  | String a rest =>
      match rstrip b rest with
      | EmptyString => if decide (char a = b) then EmptyString else char a
      | String a' rest' => String a (String a' rest')
      end
  end.

(** [s] without its leading and trailing blanks; the blanks in between stay. *)
Definition strip (b s : string) : string := rstrip b (lstrip b s).

(** A machine without any transition. *)
Definition stuck : TuringMachine :=
  {| states := ["q0"; "qf"];
     alphabet := ["0"; "_"];
     blank := "_";
     transitions := ∅;
     start := "q0";
     halt := "qf" |}.

(** A machine whose only transition carries the direction ["X"]. *)
Definition sideways : TuringMachine :=
  {| states := ["q0"; "qf"];
     alphabet := ["0"; "_"];
     blank := "_";
     transitions := <["q0:_" := ["qf"; "0"; "X"]]> ∅;
     start := "q0";
     halt := "qf" |}.

(** ** The constructor [TuringMachine.__init__] *)

(** A value produced by [json.load]; a number keeps its literal. *)
#[local] Unset Elimination Schemes.
Inductive json : Type :=
| JNull
| JBool (b : bool)
| JNum (literal : string)
| JStr (s : string)
| JArr (items : list json)
| JObj (members : list (string * json)).
#[local] Set Elimination Schemes.

(** The exceptions that [__init__] can raise on a loaded description. *)
Inductive init_error : Type :=
| KeyError (key : string)
| AttributeError
| TypeError.

#[local] Instance init_error_bind : MBind (sum init_error) :=
  λ A B f x, match x with inl e => inl e | inr a => f a end.

(** [description[key]]. *)
Definition subscript (description : gmap string json) (key : string) :
    init_error + json :=
  match description !! key with
  | Some value => inr value
  | None => inl (KeyError key)
  end.

(** [value.items()]: only an object has the method. *)
Definition items (value : json) : init_error + list (string * json) :=
  match value with
  | JObj members => inr members
  | _ => inl AttributeError
  end.

(** A value that is a [str], and one that is a list of [str]. *)
Definition as_str (value : json) : option string :=
  match value with
  | JStr s => Some s
  | _ => None
  end.

Definition as_str_list (value : json) : option (list string) :=
  match value with
  | JArr elems => mapM as_str elems
  | _ => None
  end.

(** [tuple(value)] (line 45): the elements of an array, the characters of a
    string, the keys of an object; anything else is not iterable.  The inner
    [None] stands for a tuple with an element that is not a [str], which the
    table of the model cannot hold. *)
Definition tuple (value : json) : init_error + option (list string) :=
  match value with
  | JArr elems => inr (mapM as_str elems)
  | JStr s => inr (Some (char <$> String.list_ascii_of_string s))
  | JObj members => inr (Some (members.*1))
  | _ => inl TypeError
  end.

(** The dictionary comprehension of lines 44-47, item after item. *)
Fixpoint tuple_items (members : list (string * json))
    (acc : option (gmap string (list string))) :
    init_error + option (gmap string (list string)) :=
  match members with
  | [] => inr acc
  | (key, value) :: rest =>
      t ← tuple value;
      tuple_items rest (tbl ← acc; v ← t; Some (<[key := v]> tbl))
  end.

(** [TuringMachine.__init__] (lines 40-49) on a loaded description.  The
    attributes are read in the order of the source, so that the first failing
    line decides the exception.  [inr None] is a description that Python
    accepts with an attribute outside its annotated type. *)
Definition TuringMachine_init (description : gmap string json) :
    init_error + option TuringMachine :=
  v_states ← subscript description "states";
  v_alphabet ← subscript description "alphabet";
  v_blank ← subscript description "blank";
  v_transitions ← subscript description "transitions";
  members ← items v_transitions;
  table ← tuple_items members (Some ∅);
  v_start ← subscript description "start";
  v_halt ← subscript description "halt";
  inr (st ← as_str_list v_states;
       al ← as_str_list v_alphabet;
       b ← as_str v_blank;
       tr ← table;
       s ← as_str v_start;
       h ← as_str v_halt;
       Some (mkTM st al b tr s h)).

(** The number of elements [tuple(value)] has, when [value] is iterable. *)
Definition tuple_length (value : json) : option nat :=
  match value with
  | JArr elems => Some (length elems)
  | JStr s => Some (String.length s)
  | JObj members => Some (length members)
  | _ => None
  end.

(** ** The body of [main] *)

(** Lines 132-138 of [main], once the arguments are parsed and the machine is
    built: the lines printed, and the exception that ends the program if
    [run] raises one. *)
Definition main_body (utm : TuringMachine) (tape_arg : string) (max_steps : Z)
    (trace : bool) : option (list string * option exn) :=
  let tape := parse_tape tape_arg (blank utm) in
  match run utm tape max_steps trace with
  | None => None
  | Some (Raised e, out) => Some (out, Some e)
  | Some (Returned final_tape steps final_state, out) =>
      Some ((out ++ ["Final state: " +:+ final_state;
                    "Steps executed: " +:+ pretty steps;
                    "Final tape: " +:+ tape_to_string final_tape (blank utm)])%list,
            None)
  end.

(** The description of the incrementer, as [json.load] returns it. *)
Definition incrementer_description : gmap string json :=
  <["states" := JArr [JStr "add"; JStr "done"]]>
  (<["alphabet" := JArr [JStr "1"; JStr "B"]]>
  (<["blank" := JStr "B"]>
  (<["transitions" :=
       JObj [("add:1", JArr [JStr "add"; JStr "1"; JStr "R"]);
             ("add:B", JArr [JStr "done"; JStr "1"; JStr "S"])]]>
  (<["start" := JStr "add"]>
  (<["halt" := JStr "done"]> ∅))))).

(** The keys that [__init__] reads, in the order of lines 41-49, and the
    first of them that a description lacks. *)
Definition init_keys : list string :=
  ["states"; "alphabet"; "blank"; "transitions"; "start"; "halt"].

Definition first_missing (description : gmap string json) : option string :=
  head (filter (λ key, description !! key = None) init_keys).

(** The value under ["transitions"], if there is one, is an object all of
    whose values are iterable. *)
Definition transitions_iterable (description : gmap string json) : Prop :=
  ∀ value, description !! "transitions" = Some value →
    ∃ members, value = JObj members
               ∧ Forall (λ kv, is_Some (tuple_length kv.2)) members.

(** The tape [tp] moved by [d] cells. *)
Definition shift_tape (d : Z) (tp : gmap Z string) : gmap Z string :=
  kmap (Z.add d) tp.

(** A machine whose only transition lacks its direction. *)
Definition broken : TuringMachine :=
  {| states := ["q0"; "qf"];
     alphabet := ["0"; "_"];
     blank := "_";
     transitions := <["q0:_" := ["qf"; "0"]]> ∅;
     start := "q0";
     halt := "qf" |}.

(** ** Basic facts about the loop *)

Lemma run_loop_eq fuel m max_steps trace c :
  run_loop fuel m max_steps trace c =
  if loop_cond m max_steps c then
    match fuel with
    | O => None
    | S fuel' =>
        match loop_body m trace c with
        | Next c' => run_loop fuel' m max_steps trace c'
        | Break => Some (LoopBreak, c)
        | Raise e => Some (Unwound e, c)
        end
    end
  else Some (LoopCond, c).
Proof. destruct fuel; reflexivity. Qed.

Lemma loop_cond_true m max_steps c :
  loop_cond m max_steps c = true ↔ c_state c ≠ halt m ∧ c_steps c < max_steps.
Proof.
  unfold loop_cond. rewrite andb_true_iff, !bool_decide_eq_true. tauto.
Qed.

Lemma loop_cond_false m max_steps c :
  loop_cond m max_steps c = false ↔ c_state c = halt m ∨ max_steps ≤ c_steps c.
Proof.
  unfold loop_cond. rewrite andb_false_iff, !bool_decide_eq_false.
  split.
  - intros [H|H]; [left|right; lia].
    destruct (decide (c_state c = halt m)); [done|]. by destruct H.
  - intros [H|H]; [left|right; lia]. intros Hne. by apply Hne.
Qed.

(** The three shapes of a pass through the body. *)
Lemma loop_body_cases m trace c :
  let symbol := read_cell m (c_tape c) (c_head c) in
  (transitions m !! key_of (c_state c) symbol = None ∧ loop_body m trace c = Break)
  ∨ (∃ next_state write_symbol move,
        transitions m !! key_of (c_state c) symbol
          = Some [next_state; write_symbol; move]
        ∧ loop_body m trace c =
          Next {| c_tape := write_cell m (c_tape c) (c_head c) write_symbol;
                  c_head := move_head move (c_head c);
                  c_state := next_state;
                  c_steps := c_steps c + 1;
                  c_out :=
                    if trace then
                      c_out c ++ [trace_line (c_steps c) (c_state c) (c_head c)
                                    symbol write_symbol move next_state]
                    else c_out c |})
  ∨ (∃ v, transitions m !! key_of (c_state c) symbol = Some v
          ∧ length v ≠ 3%nat ∧ loop_body m trace c = Raise ValueError).
Proof.
  intros symbol. unfold loop_body. fold symbol.
  destruct (transitions m !! key_of (c_state c) symbol) as [v|] eqn:Hk;
    [|by left].
  right.
  destruct v as [|q [|w [|d [|x v]]]];
    try (right; eexists; split; [done|]; split; [simpl; lia|done]).
  left. by exists q, w, d.
Qed.

Lemma loop_body_steps m trace c c' :
  loop_body m trace c = Next c' → c_steps c' = c_steps c + 1.
Proof.
  intros H. destruct (loop_body_cases m trace c) as [[_ E]|[(q&w&d&_&E)|(v&_&_&E)]];
    rewrite E in H; simplify_eq. done.
Qed.

Lemma loop_body_well_formed m trace c e :
  well_formed m → loop_body m trace c ≠ Raise e.
Proof.
  intros Hwf H.
  destruct (loop_body_cases m trace c) as [[_ E]|[(q&w&d&_&E)|(v&Hv&Hlen&_)]];
    [congruence|congruence|].
  apply Hwf in Hv. simpl in Hv. done.
Qed.

(** The loop is left within [max_steps - steps] passes. *)
Lemma run_loop_total fuel m max_steps trace c :
  max_steps - c_steps c ≤ Z.of_nat fuel →
  ∃ r, run_loop fuel m max_steps trace c = Some r.
Proof.
  revert c. induction fuel as [|fuel IH]; intros c Hfuel; rewrite run_loop_eq.
  - destruct (loop_cond m max_steps c) eqn:Hc; [|by eexists].
    apply loop_cond_true in Hc. lia.
  - destruct (loop_cond m max_steps c) eqn:Hc; [|by eexists].
    destruct (loop_body m trace c) as [c'| |e] eqn:Hb; [|by eexists..].
    apply IH. apply loop_body_steps in Hb. lia.
Qed.

Lemma run_loop_fuel_mono fuel fuel' m max_steps trace c r :
  run_loop fuel m max_steps trace c = Some r →
  (fuel ≤ fuel')%nat →
  run_loop fuel' m max_steps trace c = Some r.
Proof.
  revert fuel' c. induction fuel as [|fuel IH]; intros fuel' c; rewrite !run_loop_eq.
  - destruct (loop_cond m max_steps c); [done|]. by destruct fuel'.
  - destruct (loop_cond m max_steps c); [|done].
    destruct fuel' as [|fuel']; [lia|].
    destruct (loop_body m trace c); [|done..].
    intros H ?. apply IH; [done|lia].
Qed.

(** The function and the relation describe the same loop. *)
Lemma run_loop_exec fuel m max_steps trace c r :
  run_loop fuel m max_steps trace c = Some r → loop_exec m max_steps trace c r.
Proof.
  revert c. induction fuel as [|fuel IH]; intros c; rewrite run_loop_eq.
  - destruct (loop_cond m max_steps c) eqn:Hc; [done|].
    intros [= <-]. by constructor.
  - destruct (loop_cond m max_steps c) eqn:Hc; [|intros [= <-]; by constructor].
    destruct (loop_body m trace c) as [c'| |e] eqn:Hb.
    + intros H. eapply exec_next; eauto.
    + intros [= <-]. by apply exec_break.
    + intros [= <-]. by apply exec_raise.
Qed.

Lemma loop_exec_det m max_steps trace c r1 r2 :
  loop_exec m max_steps trace c r1 → loop_exec m max_steps trace c r2 → r1 = r2.
Proof.
  intros H1. revert r2.
  induction H1 as [c Hc|c Hc Hb|c e Hc Hb|c c' r Hc Hb _ IH]; intros r2 H2;
    inversion H2; subst; try congruence.
  apply IH. congruence.
Qed.

Lemma loop_exec_run_loop m max_steps trace c r :
  loop_exec m max_steps trace c r →
  ∀ fuel, max_steps - c_steps c ≤ Z.of_nat fuel →
  run_loop fuel m max_steps trace c = Some r.
Proof.
  intros Hex fuel Hfuel.
  destruct (run_loop_total fuel m max_steps trace c Hfuel) as [r' Hr'].
  rewrite Hr'. f_equal.
  eapply loop_exec_det; [|done]. by eapply run_loop_exec.
Qed.

Lemma init_fuel m tp max_steps :
  max_steps - c_steps (init m tp) ≤ Z.of_nat (Z.to_nat max_steps).
Proof. simpl. lia. Qed.

Lemma runs_run m tp max_steps trace res :
  runs m tp max_steps trace res ↔ run m tp max_steps trace = Some res.
Proof.
  unfold run. split.
  - intros [r Hr].
    by rewrite (loop_exec_run_loop _ _ _ _ _ Hr _ (init_fuel m tp max_steps)).
  - destruct (run_loop _ _ _ _ _) as [r|] eqn:Hr; [|done].
    intros [= <-]. constructor. by eapply run_loop_exec.
Qed.

(** ** How the loop is left *)

Lemma loop_exec_exit m max_steps trace c r :
  loop_exec m max_steps trace c r →
  match fst r with
  | LoopCond => loop_cond m max_steps (snd r) = false
  | LoopBreak =>
      loop_cond m max_steps (snd r) = true ∧ loop_body m trace (snd r) = Break
  | Unwound e =>
      loop_cond m max_steps (snd r) = true ∧ loop_body m trace (snd r) = Raise e
  end.
Proof. induction 1; simpl; auto. Qed.

Lemma loop_exec_well_formed m max_steps trace c r e :
  well_formed m → loop_exec m max_steps trace c r → fst r ≠ Unwound e.
Proof.
  intros Hwf Hex Hr. apply loop_exec_exit in Hex. rewrite Hr in Hex.
  destruct Hex as [_ Hb]. by eapply loop_body_well_formed.
Qed.

Lemma loop_exec_steps_ge m max_steps trace c r :
  loop_exec m max_steps trace c r → c_steps c ≤ c_steps (snd r).
Proof.
  induction 1 as [| | |c c' r _ Hb _ IH]; simpl; try lia.
  apply loop_body_steps in Hb. lia.
Qed.

Lemma loop_exec_steps_le m max_steps trace c r :
  loop_exec m max_steps trace c r →
  c_steps c ≤ max_steps → c_steps (snd r) ≤ max_steps.
Proof.
  induction 1 as [| | |c c' r Hc Hb _ IH]; simpl; try done.
  intros _. apply IH. apply loop_body_steps in Hb.
  apply loop_cond_true in Hc. lia.
Qed.

(** ** Raising the budget *)

(** A loop left by [break], by an exception, or in the halting state is left
    in the same way under any larger budget. *)
Lemma loop_exec_budget_mono m max1 max2 trace c r :
  loop_exec m max1 trace c r →
  max1 ≤ max2 →
  fst r ≠ LoopCond ∨ c_state (snd r) = halt m →
  loop_exec m max2 trace c r.
Proof.
  intros Hex Hle.
  assert (Hup : ∀ d, loop_cond m max1 d = true → loop_cond m max2 d = true).
  { intros d. rewrite !loop_cond_true. intros [? ?]. split; [done|lia]. }
  induction Hex as [c Hc|c Hc Hb|c e Hc Hb|c c' r Hc Hb _ IH]; simpl; intros Hr.
  - destruct Hr as [Hr|Hr]; [done|].
    apply exec_cond, loop_cond_false. by left.
  - apply exec_break; auto.
  - apply exec_raise; auto.
  - eapply exec_next; eauto.
Qed.

(** Under a larger budget the loop goes through the configuration in which
    the smaller budget left it. *)
Lemma loop_exec_resume m max1 max2 trace c r1 r2 :
  loop_exec m max1 trace c r1 →
  max1 ≤ max2 →
  loop_exec m max2 trace c r2 →
  loop_exec m max2 trace (snd r1) r2.
Proof.
  intros Hex Hle. revert r2.
  induction Hex as [c Hc|c Hc Hb|c e Hc Hb|c c' r Hc Hb _ IH]; simpl; intros r2 H2;
    try done.
  apply IH.
  assert (Hc2 : loop_cond m max2 c = true).
  { revert Hc. rewrite !loop_cond_true. intros [? ?]. split; [done|lia]. }
  inversion H2; subst; congruence.
Qed.

(** ** The trace flag *)

Lemma loop_cond_same_locals m max_steps c1 c2 :
  same_locals c1 c2 → loop_cond m max_steps c1 = loop_cond m max_steps c2.
Proof. intros (_&_&Hq&Hs). unfold loop_cond. by rewrite Hq, Hs. Qed.

Lemma loop_body_same_locals m trace1 trace2 c1 c2 :
  same_locals c1 c2 →
  match loop_body m trace1 c1, loop_body m trace2 c2 with
  | Next d1, Next d2 => same_locals d1 d2
  | Break, Break => True
  | Raise e1, Raise e2 => e1 = e2
  | _, _ => False
  end.
Proof.
  intros (Ht&Hh&Hq&Hs). unfold loop_body. rewrite Ht, Hh, Hq, Hs.
  destruct (transitions m !! _) as [v|]; [|done].
  by destruct v as [|q [|w [|d [|x v]]]].
Qed.

Lemma loop_exec_same_locals m max_steps trace1 trace2 c1 c2 r1 r2 :
  same_locals c1 c2 →
  loop_exec m max_steps trace1 c1 r1 →
  loop_exec m max_steps trace2 c2 r2 →
  fst r1 = fst r2 ∧ same_locals (snd r1) (snd r2).
Proof.
  intros Hsame H1. revert c2 r2 Hsame.
  induction H1 as [c Hc|c Hc Hb|c e Hc Hb|c c' r Hc Hb _ IH];
    intros c2 r2 Hsame H2;
    pose proof (loop_cond_same_locals m max_steps _ _ Hsame) as Hcc;
    pose proof (loop_body_same_locals m trace1 trace2 _ _ Hsame) as Hbb;
    inversion H2 as [d Hd|d Hd Hbd|d e' Hd Hbd|d d' r' Hd Hbd Hex']; subst;
    try congruence; try (rewrite Hb, Hbd in Hbb); try done; simpl.
  - by subst.
  - by eapply IH.
Qed.

Lemma result_of_same_locals r1 r2 :
  fst r1 = fst r2 → same_locals (snd r1) (snd r2) → result_of r1 = result_of r2.
Proof.
  intros Hf (Ht&_&Hq&Hs). unfold result_of. rewrite Hf, Ht, Hq, Hs. done.
Qed.

(** ** The representation invariant of the tape *)

Lemma write_cell_ok m tp head w :
  tape_ok (blank m) tp → tape_ok (blank m) (write_cell m tp head w).
Proof.
  intros Hok. unfold write_cell. case_decide.
  - by apply map_Forall_delete.
  - by apply map_Forall_insert_2.
Qed.

Lemma loop_body_ok m trace c c' :
  tape_ok (blank m) (c_tape c) → loop_body m trace c = Next c' →
  tape_ok (blank m) (c_tape c').
Proof.
  intros Hok H.
  destruct (loop_body_cases m trace c) as [[_ E]|[(q&w&d&_&E)|(v&_&_&E)]];
    rewrite E in H; simplify_eq. simpl. by apply write_cell_ok.
Qed.

Lemma loop_exec_ok m max_steps trace c r :
  loop_exec m max_steps trace c r →
  tape_ok (blank m) (c_tape c) → tape_ok (blank m) (c_tape (snd r)).
Proof.
  induction 1 as [| | |c c' r _ Hb _ IH]; simpl; try done.
  intros Hok. apply IH. by eapply loop_body_ok.
Qed.

Lemma parse_from_ok i s b tp :
  tape_ok b tp → tape_ok b (parse_from i s b tp).
Proof.
  revert i tp. induction s as [|a s IH]; intros i tp Hok; simpl; [done|].
  apply IH. case_decide; [|done]. by apply map_Forall_insert_2.
Qed.

Lemma parse_tape_ok s b : tape_ok b (parse_tape s b).
Proof. apply parse_from_ok, map_Forall_empty. Qed.

(** ** From the loop to [run] *)

Lemma run_intro m tp max_steps trace r :
  loop_exec m max_steps trace (init m tp) r →
  run m tp max_steps trace = Some (result_of r, c_out (snd r)).
Proof. intros Hr. apply runs_run. by constructor. Qed.

Lemma run_inv m tp max_steps trace res out :
  run m tp max_steps trace = Some (res, out) →
  ∃ r, loop_exec m max_steps trace (init m tp) r
       ∧ res = result_of r ∧ out = c_out (snd r).
Proof.
  intros H. apply runs_run in H. inversion H as [r Hr]. by exists r.
Qed.

Lemma result_of_returned r t s q :
  result_of r = Returned t s q →
  (∀ e, fst r ≠ Unwound e)
  ∧ t = c_tape (snd r) ∧ s = c_steps (snd r) ∧ q = c_state (snd r).
Proof.
  unfold result_of. destruct (fst r); intros H; by simplify_eq.
Qed.

Lemma result_of_well_formed m max_steps trace c r :
  well_formed m → loop_exec m max_steps trace c r →
  result_of r = Returned (c_tape (snd r)) (c_steps (snd r)) (c_state (snd r)).
Proof.
  intros Hwf Hex. unfold result_of.
  destruct (fst r) as [| |e] eqn:Hf; try done.
  by destruct (loop_exec_well_formed m max_steps trace c r e).
Qed.

Lemma run_returns m tp max_steps trace :
  well_formed m →
  ∃ t s q out, run m tp max_steps trace = Some (Returned t s q, out).
Proof.
  intros Hwf.
  destruct (run_loop_total _ m max_steps trace _ (init_fuel m tp max_steps))
    as [r Hr].
  apply run_loop_exec in Hr.
  exists (c_tape (snd r)), (c_steps (snd r)), (c_state (snd r)), (c_out (snd r)).
  rewrite (run_intro _ _ _ _ _ Hr). by erewrite result_of_well_formed.
Qed.

(** A run that halted, met an undefined transition or raised does the same
    under any larger budget. *)
Lemma run_budget_mono m tp m1 m2 trace res out :
  run m tp m1 trace = Some (res, out) →
  m1 ≤ m2 →
  match res with
  | Returned _ s q => q = halt m ∨ s < m1
  | Raised _ => True
  end →
  run m tp m2 trace = Some (res, out).
Proof.
  intros Hrun Hle Hres.
  destruct (run_inv _ _ _ _ _ _ Hrun) as (r&Hex&->&->).
  apply run_intro. eapply loop_exec_budget_mono; [done..|].
  pose proof (loop_exec_exit _ _ _ _ _ Hex) as Hexit.
  unfold result_of in Hres.
  destruct (fst r); [|by left..].
  apply loop_cond_false in Hexit. right.
  destruct Hres as [?|?], Hexit as [?|?]; try done. lia.
Qed.

Lemma incrementer_well_formed : well_formed incrementer.
Proof.
  unfold well_formed, incrementer; simpl.
  repeat apply map_Forall_insert_2; try done.
Qed.

Lemma stuck_well_formed : well_formed stuck.
Proof. apply map_Forall_empty. Qed.

(** ** Undefined transitions *)

(** C1: when the pair (state, symbol) read by a pass of the loop has no entry
    in the transition table, the loop is left at once by the [break]: the
    tape, the head, the state and the step count are those on entry to that
    pass, and they are what [run] returns.  In particular a machine without a
    transition for (start, blank), run on the empty tape, returns the empty
    tape, 0 steps and the state [start]. *)
Theorem undefined_transition_exits m max_steps trace :
  (∀ c fuel,
     loop_cond m max_steps c = true →
     transitions m !! key_of (c_state c) (read_cell m (c_tape c) (c_head c)) = None →
     loop_body m trace c = Break
     ∧ run_loop (S fuel) m max_steps trace c = Some (LoopBreak, c)
     ∧ result_of (LoopBreak, c) = Returned (c_tape c) (c_steps c) (c_state c))
  ∧ (transitions m !! key_of (start m) (blank m) = None →
     run m ∅ max_steps trace = Some (Returned ∅ 0 (start m), [])).
Proof.
  assert (Hbody : ∀ c,
    transitions m !! key_of (c_state c) (read_cell m (c_tape c) (c_head c)) = None →
    loop_body m trace c = Break).
  { intros c Hk. unfold loop_body. by rewrite Hk. }
  split.
  - intros c fuel Hc Hk. split; [by apply Hbody|]. split; [|done].
    rewrite run_loop_eq, Hc. by rewrite Hbody.
  - intros Hk.
    assert (Hb : loop_body m trace (init m ∅) = Break).
    { apply Hbody. simpl. unfold read_cell. by rewrite lookup_empty. }
    destruct (loop_cond m max_steps (init m ∅)) eqn:Hc.
    + by rewrite (run_intro m ∅ max_steps trace (LoopBreak, init m ∅)
                    (exec_break _ _ _ _ Hc Hb)).
    + by rewrite (run_intro m ∅ max_steps trace (LoopCond, init m ∅)
                    (exec_cond _ _ _ _ Hc)).
Qed.

Lemma undefined_transition_exits_witness :
  (loop_body stuck false (init stuck ∅) = Break
   ∧ run_loop 1 stuck 5 false (init stuck ∅) = Some (LoopBreak, init stuck ∅)
   ∧ result_of (LoopBreak, init stuck ∅) = Returned ∅ 0 "q0")
  ∧ run stuck ∅ 5 false = Some (Returned ∅ 0 "q0", []).
Proof.
  destruct (undefined_transition_exits stuck 5 false) as [Hgen Hempty].
  split.
  - apply (Hgen (init stuck ∅) 0%nat); reflexivity.
  - apply Hempty. reflexivity.
Defined.

(** ** The three ways out of the loop *)

(** C2: for a budget [max_steps >= 0] and a table of triples, the loop of
    [run] is left through exactly one of three conditions: the state is
    [halt]; the state is not [halt] and the step count equals [max_steps]; or
    the [break] was taken because the pair read has no transition, in which
    case the state is not [halt] and the step count is below [max_steps].
    Comparing the returned state with [halt] and the returned step count with
    [max_steps] tells which condition it was. *)
Theorem run_exit_distinguishable m tp max_steps trace :
  0 ≤ max_steps →
  well_formed m →
  ∃ r t,
    run_loop (Z.to_nat max_steps) m max_steps trace (init m tp) = Some r
    ∧ run m tp max_steps trace = Some (result_of r, c_out (snd r))
    ∧ fired m r = Some t
    ∧ classify m max_steps (result_of r) = Some t
    ∧ match t with
      | NormalHalt => fst r = LoopCond ∧ c_state (snd r) = halt m
      | BudgetExceeded =>
          fst r = LoopCond ∧ c_steps (snd r) = max_steps
          ∧ c_state (snd r) ≠ halt m
      | UndefinedTransition =>
          fst r = LoopBreak
          ∧ transitions m
              !! key_of (c_state (snd r))
                   (read_cell m (c_tape (snd r)) (c_head (snd r))) = None
          ∧ c_state (snd r) ≠ halt m ∧ c_steps (snd r) < max_steps
      end.
Proof.
  intros Hmax Hwf.
  destruct (run_loop_total _ m max_steps trace _ (init_fuel m tp max_steps))
    as [r Hr].
  pose proof (run_loop_exec _ _ _ _ _ _ Hr) as Hex.
  pose proof (loop_exec_exit _ _ _ _ _ Hex) as Hexit.
  pose proof (loop_exec_steps_le _ _ _ _ _ Hex Hmax) as Hle.
  pose proof (result_of_well_formed _ _ _ _ _ Hwf Hex) as Hres.
  assert (Hfired : ∃ t, fired m r = Some t ∧
    match t with
    | NormalHalt => fst r = LoopCond ∧ c_state (snd r) = halt m
    | BudgetExceeded =>
        fst r = LoopCond ∧ c_steps (snd r) = max_steps ∧ c_state (snd r) ≠ halt m
    | UndefinedTransition =>
        fst r = LoopBreak
        ∧ transitions m
            !! key_of (c_state (snd r))
                 (read_cell m (c_tape (snd r)) (c_head (snd r))) = None
        ∧ c_state (snd r) ≠ halt m ∧ c_steps (snd r) < max_steps
    end).
  { unfold fired. destruct (fst r) as [| |e] eqn:Hf.
    - apply loop_cond_false in Hexit. case_decide.
      + by exists NormalHalt.
      + exists BudgetExceeded. repeat split; try done.
        destruct Hexit; [done|]. simpl in Hle. lia.
    - destruct Hexit as [Hc Hb]. apply loop_cond_true in Hc as [Hq Hs].
      exists UndefinedTransition. repeat split; try done.
      destruct (loop_body_cases m trace (snd r))
        as [[Hk _]|[(q&w&d&_&E)|(v&_&_&E)]]; [done|congruence..].
    - by destruct (loop_exec_well_formed m max_steps trace _ r e Hwf Hex). }
  destruct Hfired as (t&Ht&Hcase).
  exists r, t. split; [done|]. split; [by apply run_intro|]. split; [done|].
  split; [|done].
  rewrite Hres. simpl.
  destruct t.
  - destruct Hcase as [_ Hq]. by rewrite decide_True.
  - destruct Hcase as (_&Hs&Hq). by rewrite decide_False, decide_True.
  - destruct Hcase as (_&_&Hq&Hs). rewrite decide_False, decide_False; [done|lia|done].
Qed.

Lemma run_exit_distinguishable_witness :
  ∃ r t,
    run_loop (Z.to_nat 10) incrementer 10 false
      (init incrementer (parse_tape "111" "B")) = Some r
    ∧ run incrementer (parse_tape "111" "B") 10 false
      = Some (result_of r, c_out (snd r))
    ∧ fired incrementer r = Some t
    ∧ classify incrementer 10 (result_of r) = Some t
    ∧ match t with
      | NormalHalt => fst r = LoopCond ∧ c_state (snd r) = halt incrementer
      | BudgetExceeded =>
          fst r = LoopCond ∧ c_steps (snd r) = 10
          ∧ c_state (snd r) ≠ halt incrementer
      | UndefinedTransition =>
          fst r = LoopBreak
          ∧ transitions incrementer
              !! key_of (c_state (snd r))
                   (read_cell incrementer (c_tape (snd r)) (c_head (snd r))) = None
          ∧ c_state (snd r) ≠ halt incrementer ∧ c_steps (snd r) < 10
      end.
Proof.
  apply (run_exit_distinguishable incrementer (parse_tape "111" "B") 10 false).
  - lia.
  - exact incrementer_well_formed.
Defined.

(** ** Raising the step budget *)

(** On a table of triples a loop entered with no more than [max_steps] steps
    is left in the halting state, or on its budget with exactly [max_steps]
    steps, or by the [break] for a pair without a transition before the
    budget is used up. *)
Lemma loop_exec_exit_cases m max_steps trace c r :
  well_formed m →
  loop_exec m max_steps trace c r →
  c_steps c ≤ max_steps →
  (fst r = LoopCond ∧ c_state (snd r) = halt m)
  ∨ (fst r = LoopCond ∧ c_state (snd r) ≠ halt m ∧ c_steps (snd r) = max_steps)
  ∨ (fst r = LoopBreak ∧ c_state (snd r) ≠ halt m ∧ c_steps (snd r) < max_steps
     ∧ transitions m
         !! key_of (c_state (snd r))
              (read_cell m (c_tape (snd r)) (c_head (snd r))) = None).
Proof.
  intros Hwf Hex Hle.
  pose proof (loop_exec_exit _ _ _ _ _ Hex) as Hexit.
  pose proof (loop_exec_steps_le _ _ _ _ _ Hex Hle) as Hsteps.
  destruct (fst r) as [| |e] eqn:Hf.
  - apply loop_cond_false in Hexit.
    destruct (decide (c_state (snd r) = halt m)) as [Hq|Hq]; [by left|].
    right. left. repeat split; try done. destruct Hexit; [done|lia].
  - destruct Hexit as [Hc Hb]. apply loop_cond_true in Hc as [Hq Hs].
    do 2 right. repeat split; try done.
    destruct (loop_body_cases m trace (snd r))
      as [[Hk _]|[(q&w&d&_&E)|(v&_&_&E)]]; [done|congruence..].
  - by destruct (loop_exec_well_formed m max_steps trace c r e Hwf Hex).
Qed.

(** C3, as amended: for budgets [0 <= m1 <= m2], when the run with budget [m1]
    returns in the halting state, or in another state with fewer than [m1]
    steps, the run with budget [m2] returns the same tape, step count and
    state.  Otherwise the run with budget [m1] returned after exactly [m1]
    steps, and the run with budget [m2] (on a table of triples) carries on
    from the configuration in which the first run stopped and returns after
    [s2] steps with [m1 <= s2 <= m2], in one of three ways: in the halting
    state; or on its budget, with [s2 = m2] and a state other than [halt]; or
    by an undefined transition, with [s2 < m2], a state other than [halt] and
    no table entry for the pair under the head. *)
Theorem run_budget_monotone m tp m1 m2 trace t1 s1 q1 out1 :
  0 ≤ m1 →
  m1 ≤ m2 →
  run m tp m1 trace = Some (Returned t1 s1 q1, out1) →
  (q1 = halt m ∨ s1 < m1 →
   run m tp m2 trace = Some (Returned t1 s1 q1, out1))
  ∧ (¬ (q1 = halt m ∨ s1 < m1) →
     s1 = m1
     ∧ (well_formed m →
        ∃ r1 r2,
          run_loop (Z.to_nat m1) m m1 trace (init m tp) = Some r1
          ∧ run_loop (Z.to_nat m2) m m2 trace (init m tp) = Some r2
          ∧ loop_exec m m2 trace (snd r1) r2
          ∧ run m tp m2 trace
            = Some (Returned (c_tape (snd r2)) (c_steps (snd r2))
                      (c_state (snd r2)), c_out (snd r2))
          ∧ m1 ≤ c_steps (snd r2) ≤ m2
          ∧ ((fst r2 = LoopCond ∧ c_state (snd r2) = halt m)
             ∨ (fst r2 = LoopCond ∧ c_state (snd r2) ≠ halt m
                ∧ c_steps (snd r2) = m2)
             ∨ (fst r2 = LoopBreak ∧ c_state (snd r2) ≠ halt m
                ∧ c_steps (snd r2) < m2
                ∧ transitions m
                    !! key_of (c_state (snd r2))
                         (read_cell m (c_tape (snd r2)) (c_head (snd r2)))
                  = None)))).
Proof.
  intros H0 Hle Hrun. split.
  - intros Hcase. by eapply run_budget_mono.
  - intros Hcase.
    destruct (run_loop_total _ m m1 trace _ (init_fuel m tp m1)) as [r1 Hr1].
    pose proof (run_loop_exec _ _ _ _ _ _ Hr1) as Hex1.
    rewrite (run_intro _ _ _ _ _ Hex1) in Hrun. injection Hrun as Hres1 _.
    apply result_of_returned in Hres1 as (_&_&->&->).
    pose proof (loop_exec_steps_le _ _ _ _ _ Hex1 H0) as Hs1.
    assert (c_steps (snd r1) = m1) as Heq by lia.
    split; [done|]. intros Hwf.
    destruct (run_loop_total _ m m2 trace _ (init_fuel m tp m2)) as [r2 Hr2].
    pose proof (run_loop_exec _ _ _ _ _ _ Hr2) as Hex2.
    pose proof (loop_exec_resume _ _ _ _ _ _ _ Hex1 Hle Hex2) as Hresume.
    assert (Hm2 : c_steps (init m tp) ≤ m2) by (simpl; lia).
    exists r1, r2. split; [done|]. split; [done|]. split; [done|].
    split.
    { rewrite (run_intro _ _ _ _ _ Hex2).
      by rewrite (result_of_well_formed _ _ _ _ _ Hwf Hex2). }
    split.
    { split.
      - rewrite <- Heq. apply (loop_exec_steps_ge _ _ _ _ _ Hresume).
      - apply (loop_exec_steps_le _ _ _ _ _ Hex2 Hm2). }
    apply (loop_exec_exit_cases _ _ _ _ _ Hwf Hex2 Hm2).
Qed.

Lemma run_budget_monotone_witness :
  run incrementer (parse_tape "111" "B") 10 false
  = Some (Returned (parse_tape "1111" "B") 4 "done", [])
  ∧ 2 = 2
  ∧ ∃ r1 r2,
      run_loop (Z.to_nat 2) incrementer 2 false
        (init incrementer (parse_tape "111" "B")) = Some r1
      ∧ run_loop (Z.to_nat 10) incrementer 10 false
          (init incrementer (parse_tape "111" "B")) = Some r2
      ∧ loop_exec incrementer 10 false (snd r1) r2
      ∧ run incrementer (parse_tape "111" "B") 10 false
        = Some (Returned (c_tape (snd r2)) (c_steps (snd r2))
                  (c_state (snd r2)), c_out (snd r2))
      ∧ 2 ≤ c_steps (snd r2) ≤ 10
      ∧ ((fst r2 = LoopCond ∧ c_state (snd r2) = halt incrementer)
         ∨ (fst r2 = LoopCond ∧ c_state (snd r2) ≠ halt incrementer
            ∧ c_steps (snd r2) = 10)
         ∨ (fst r2 = LoopBreak ∧ c_state (snd r2) ≠ halt incrementer
            ∧ c_steps (snd r2) < 10
            ∧ transitions incrementer
                !! key_of (c_state (snd r2))
                     (read_cell incrementer (c_tape (snd r2)) (c_head (snd r2)))
              = None)).
Proof.
  split.
  - refine (proj1 (run_budget_monotone incrementer (parse_tape "111" "B") 5 10
                     false (parse_tape "1111" "B") 4 "done" [] _ _ _) _).
    + lia.
    + lia.
    + vm_compute. reflexivity.
    + left. reflexivity.
  - refine (_ (proj2 (run_budget_monotone incrementer (parse_tape "111" "B") 2 10
                        false (parse_tape "111" "B") 2 "add" [] _ _ _) _)).
    + intros [Heq Hrest]. split; [exact Heq|].
      exact (Hrest incrementer_well_formed).
    + lia.
    + lia.
    + vm_compute. reflexivity.
    + intros [Hq|Hlt]; [discriminate Hq|lia].
Defined.

(** The run of the incrementer on "111" with budget 2 stops on its budget
    after 2 steps in state "add"; with budget 10 it halts after 4 steps, which
    is neither budget. *)
Lemma budget_otherwise_counterexample :
  ¬ budget_otherwise_claim incrementer (parse_tape "111" "B") 2 10 false.
Proof.
  intros Hclaim.
  destruct (Hclaim (parse_tape "111" "B") 2 "add" [])
    as (t2&s2&q2&out2&Hrun&Hs).
  - vm_compute. reflexivity.
  - intros [Hq|Hlt]; [discriminate Hq|lia].
  - assert (Hfour : run incrementer (parse_tape "111" "B") 10 false
                    = Some (Returned (parse_tape "1111" "B") 4 "done", []))
      by (vm_compute; reflexivity).
    rewrite Hfour in Hrun. injection Hrun as _ Hs2 _. lia.
Qed.

(** ** The unary incrementer *)

(** C4: the machine with states add and done, blank B, start add, halt done
    and transitions add:1 -> (add, 1, R), add:B -> (done, 1, S), run on the
    tape built from "111" with any budget of at least 4 steps (the default
    10000 among them), returns a tape that renders to "1111", the state done
    and 4 steps. *)
Theorem incrementer_scenario max_steps trace :
  4 ≤ max_steps →
  ∃ tp out,
    run incrementer (parse_tape "111" "B") max_steps trace
    = Some (Returned tp 4 "done", out)
    ∧ tape_to_string tp "B" = "1111".
Proof.
  intros Hmax.
  exists (parse_tape "1111" "B").
  exists (if trace then
    ["[step 0] state=add head=0 read=1 -> write=1 move=R next=add";
     "[step 1] state=add head=1 read=1 -> write=1 move=R next=add";
     "[step 2] state=add head=2 read=1 -> write=1 move=R next=add";
     "[step 3] state=add head=3 read=B -> write=1 move=S next=done"]
    else []).
  split.
  - apply (run_budget_mono incrementer _ 4 max_steps); [|done|by left].
    destruct trace; vm_compute; reflexivity.
  - vm_compute. reflexivity.
Qed.

Lemma incrementer_scenario_witness :
  ∃ tp out,
    run incrementer (parse_tape "111" "B") 10000 false
    = Some (Returned tp 4 "done", out)
    ∧ tape_to_string tp "B" = "1111".
Proof. apply (incrementer_scenario 10000 false). lia. Defined.

(** ** The tape never stores the blank *)

(** C6: the invariant that no stored entry holds the blank symbol is
    established by [parse_tape] and preserved by every pass of the loop of
    [run]: writing the blank removes the entry, so that the cell reads as
    blank again, and writing another symbol stores it.  Hence when the tape
    given to [run] satisfies the invariant, so does the tape it returns (and
    on a table of triples [run] does return one). *)
Theorem tape_invariant m :
  (∀ s b, tape_ok b (parse_tape s b))
  ∧ (∀ tp p,
       write_cell m tp p (blank m) !! p = None
       ∧ read_cell m (write_cell m tp p (blank m)) p = blank m)
  ∧ (∀ tp p w,
       w ≠ blank m →
       write_cell m tp p w !! p = Some w ∧ read_cell m (write_cell m tp p w) p = w)
  ∧ (∀ trace c c',
       tape_ok (blank m) (c_tape c) → loop_body m trace c = Next c' →
       tape_ok (blank m) (c_tape c'))
  ∧ (∀ tp max_steps trace,
       tape_ok (blank m) tp →
       (∀ t s q out,
          run m tp max_steps trace = Some (Returned t s q, out) →
          tape_ok (blank m) t)
       ∧ (well_formed m →
          ∃ t s q out,
            run m tp max_steps trace = Some (Returned t s q, out)
            ∧ tape_ok (blank m) t)).
Proof.
  assert (Hrun : ∀ tp max_steps trace t s q out,
    tape_ok (blank m) tp →
    run m tp max_steps trace = Some (Returned t s q, out) →
    tape_ok (blank m) t).
  { intros tp max_steps trace t s q out Hok H.
    destruct (run_inv _ _ _ _ _ _ H) as (r&Hex&Hres&_).
    symmetry in Hres. apply result_of_returned in Hres as (_&->&_&_).
    by apply (loop_exec_ok _ _ _ _ _ Hex). }
  split; [apply parse_tape_ok|].
  split.
  { intros tp p. unfold read_cell, write_cell.
    rewrite decide_True by done. by rewrite lookup_delete_eq. }
  split.
  { intros tp p w Hw. unfold read_cell, write_cell.
    rewrite decide_False by done. by rewrite lookup_insert_eq. }
  split; [intros trace c c'; apply loop_body_ok|].
  intros tp max_steps trace Hok. split.
  - intros t s q out. by apply Hrun.
  - intros Hwf.
    destruct (run_returns m tp max_steps trace Hwf) as (t&s&q&out&H).
    exists t, s, q, out. split; [done|]. by eapply Hrun.
Qed.

Lemma tape_invariant_witness :
  tape_ok "B" (parse_tape "1B1" "B")
  ∧ (write_cell incrementer (parse_tape "1B1" "B") 0 "B" !! 0 = None
     ∧ read_cell incrementer (write_cell incrementer (parse_tape "1B1" "B") 0 "B") 0
       = "B")
  ∧ (write_cell incrementer (parse_tape "1B1" "B") 1 "1" !! 1 = Some "1"
     ∧ read_cell incrementer (write_cell incrementer (parse_tape "1B1" "B") 1 "1") 1
       = "1")
  ∧ ∃ t s q out,
      run incrementer (parse_tape "1B1" "B") 10 false = Some (Returned t s q, out)
      ∧ tape_ok "B" t.
Proof.
  destruct (tape_invariant incrementer) as (Hparse&Hblank&Hother&_&Hrun).
  split; [apply Hparse|].
  split; [apply (Hblank (parse_tape "1B1" "B") 0)|].
  split; [apply (Hother (parse_tape "1B1" "B") 1 "1"); discriminate|].
  apply (Hrun (parse_tape "1B1" "B") 10 false).
  - apply Hparse.
  - exact incrementer_well_formed.
Defined.

(** ** Determinism *)

(** C7: [run] is deterministic.  Two invocations on the same machine with
    equal initial tapes and equal budgets return the same tape, step count and
    state, whatever their trace flags; with equal trace flags they also print
    the same lines. *)
Theorem run_deterministic m tp1 tp2 max1 max2 trace1 trace2 res1 res2 :
  tp1 = tp2 →
  max1 = max2 →
  runs m tp1 max1 trace1 res1 →
  runs m tp2 max2 trace2 res2 →
  fst res1 = fst res2 ∧ (trace1 = trace2 → res1 = res2).
Proof.
  intros <- <- H1 H2.
  destruct H1 as [r1 H1], H2 as [r2 H2]. simpl. split.
  - assert (Hsame : same_locals (init m tp1) (init m tp1)) by done.
    destruct (loop_exec_same_locals _ _ _ _ _ _ _ _ Hsame H1 H2) as [Hf Hl].
    by apply result_of_same_locals.
  - intros <-. by rewrite (loop_exec_det _ _ _ _ _ _ H1 H2).
Qed.

Lemma run_deterministic_witness :
  fst (Returned (parse_tape "1111" "B") 4 "done", @nil string)
  = fst (Returned (parse_tape "1111" "B") 4 "done",
         ["[step 0] state=add head=0 read=1 -> write=1 move=R next=add";
          "[step 1] state=add head=1 read=1 -> write=1 move=R next=add";
          "[step 2] state=add head=2 read=1 -> write=1 move=R next=add";
          "[step 3] state=add head=3 read=B -> write=1 move=S next=done"])
  ∧ (false = true →
     (Returned (parse_tape "1111" "B") 4 "done", @nil string)
     = (Returned (parse_tape "1111" "B") 4 "done",
        ["[step 0] state=add head=0 read=1 -> write=1 move=R next=add";
         "[step 1] state=add head=1 read=1 -> write=1 move=R next=add";
         "[step 2] state=add head=2 read=1 -> write=1 move=R next=add";
         "[step 3] state=add head=3 read=B -> write=1 move=S next=done"])).
Proof.
  apply (run_deterministic incrementer
           (parse_tape "111" "B") (parse_tape "111" "B") 10 10 false true).
  - reflexivity.
  - reflexivity.
  - apply runs_run. vm_compute. reflexivity.
  - apply runs_run. vm_compute. reflexivity.
Defined.

(** ** No exception *)

(** C8: for [max_steps >= 0] and a transition table all of whose values are
    triples, [run] raises nothing: it returns a tape, a step count and a
    state, whichever of the three ways out was taken.  Reading a cell is
    total: a position that is absent from the tape reads as the blank
    symbol, a position that is present as the symbol stored. *)
Theorem run_never_raises m tp max_steps trace :
  0 ≤ max_steps →
  well_formed m →
  (∃ t s q out, run m tp max_steps trace = Some (Returned t s q, out))
  ∧ (∀ e out, run m tp max_steps trace ≠ Some (Raised e, out))
  ∧ (∀ tp' p, tp' !! p = None → read_cell m tp' p = blank m)
  ∧ (∀ tp' p v, tp' !! p = Some v → read_cell m tp' p = v).
Proof.
  intros _ Hwf.
  destruct (run_returns m tp max_steps trace Hwf) as (t&s&q&out&H).
  split; [by exists t, s, q, out|].
  split; [intros e out'; by rewrite H|].
  unfold read_cell. split.
  - intros tp' p Hp. by rewrite Hp.
  - intros tp' p v Hp. by rewrite Hp.
Qed.

Lemma run_never_raises_witness :
  (∃ t s q out,
     run incrementer (parse_tape "111" "B") 3 true = Some (Returned t s q, out))
  ∧ (∀ e out,
       run incrementer (parse_tape "111" "B") 3 true ≠ Some (Raised e, out))
  ∧ (∀ tp' p, tp' !! p = None → read_cell incrementer tp' p = blank incrementer)
  ∧ (∀ tp' p v, tp' !! p = Some v → read_cell incrementer tp' p = v).
Proof.
  apply (run_never_raises incrementer (parse_tape "111" "B") 3 true).
  - lia.
  - exact incrementer_well_formed.
Defined.

(** ** Head movement *)

(** C9: a transition whose direction is neither ['L'] nor ['R'] (be it
    ['S'], ['X'] or the empty string) is applied with the head left where it
    is; ['L'] moves the head one cell down, ['R'] one cell up, and no
    direction makes the pass fail. *)
Theorem direction_moves_head m trace c next_state write_symbol move :
  transitions m !! key_of (c_state c) (read_cell m (c_tape c) (c_head c))
  = Some [next_state; write_symbol; move] →
  ∃ c',
    loop_body m trace c = Next c'
    ∧ c_state c' = next_state
    ∧ (move = "L" → c_head c' = c_head c - 1)
    ∧ (move = "R" → c_head c' = c_head c + 1)
    ∧ (move ≠ "L" → move ≠ "R" → c_head c' = c_head c).
Proof.
  intros Hk. unfold loop_body. rewrite Hk. eexists. split; [done|]. simpl.
  unfold move_head. split; [done|].
  split; [|split].
  - intros ->. done.
  - intros ->. done.
  - intros HL HR. by rewrite !decide_False.
Qed.

Lemma direction_moves_head_witness :
  ∃ c',
    loop_body sideways false (init sideways ∅) = Next c'
    ∧ c_state c' = "qf"
    ∧ ("X" = "L" → c_head c' = c_head (init sideways ∅) - 1)
    ∧ ("X" = "R" → c_head c' = c_head (init sideways ∅) + 1)
    ∧ ("X" ≠ "L" → "X" ≠ "R" → c_head c' = c_head (init sideways ∅)).
Proof.
  apply (direction_moves_head sideways false (init sideways ∅) "qf" "0" "X").
  reflexivity.
Defined.

(** ** Characters of a string by index *)

Lemma app_String a s1 s2 : String a s1 +:+ s2 = String a (s1 +:+ s2).
Proof. reflexivity. Qed.

Lemma get_app_l n s1 s2 :
  (n < String.length s1)%nat → String.get n (s1 +:+ s2) = String.get n s1.
Proof.
  revert n. induction s1 as [|a s1 IH]; intros n Hn; simpl in *; [lia|].
  destruct n as [|n]; [done|]. apply IH. lia.
Qed.

Lemma get_app_r n s1 s2 :
  String.get (String.length s1 + n) (s1 +:+ s2) = String.get n s2.
Proof. induction s1 as [|a s1 IH]; simpl; [done|]. apply IH. Qed.

Lemma get_some_lt n s a :
  String.get n s = Some a → (n < String.length s)%nat.
Proof.
  revert n. induction s as [|a' s IH]; intros n; simpl; [done|].
  destruct n as [|n]; [lia|]. intros H. apply IH in H. lia.
Qed.

Lemma length_app s1 s2 :
  String.length (s1 +:+ s2) = (String.length s1 + String.length s2)%nat.
Proof. induction s1 as [|a s1 IH]; simpl; [done|]. by rewrite IH. Qed.

Lemma all_blank_get b s n a :
  all_blank b s → String.get n s = Some a → char a = b.
Proof.
  revert n. induction s as [|a' s IH]; intros n; simpl; [done|].
  intros [Ha Hs]. destruct n as [|n]; [by intros [= <-]|]. by apply IH.
Qed.

(** ** What stripping does *)

Lemma lstrip_spec b s :
  ∃ pre, s = pre +:+ lstrip b s ∧ all_blank b pre
         ∧ ∀ a r, lstrip b s = String a r → char a ≠ b.
Proof.
  induction s as [|a s (pre&Hs&Hpre&Hhd)]; simpl.
  - by exists "".
  - case_decide as Ha.
    + exists (String a pre). split; [|by split].
      rewrite app_String. by rewrite <- Hs.
    + exists "". repeat split; try done. by intros ? ? [= <- <-].
Qed.

Lemma rstrip_spec b t :
  ∃ post, t = rstrip b t +:+ post ∧ all_blank b post
          ∧ (rstrip b t ≠ "" →
             ∃ a, String.get (String.length (rstrip b t) - 1) (rstrip b t) = Some a
                  ∧ char a ≠ b)
          ∧ (∀ a r, t = String a r → char a ≠ b → ∃ r', rstrip b t = String a r').
Proof.
  induction t as [|a t (post&Ht&Hpost&Hlast&_)]; simpl.
  - exists "". repeat split; try done.
  - destruct (rstrip b t) as [|a' r'] eqn:Hr.
    + change ("" +:+ post) with post in Ht. subst post. case_decide as Ha.
      * exists (String a t). repeat split; try done.
        intros ? ? [= <- <-] ?. done.
      * exists t. repeat split; try done.
        -- intros _. by exists a.
        -- intros ? ? [= <- <-] _. by eexists.
    + exists post. split; [rewrite app_String; by rewrite <- Ht|].
      split; [done|]. split.
      * intros _. destruct Hlast as (x&Hx&Hxb); [done|].
        exists x. split; [|done]. simpl in *. by rewrite Nat.sub_0_r in *.
      * intros ? ? [= <- <-] _. by eexists.
Qed.

(** Only a blank symbol of one character can occur in a string; with a blank
    of any other length [parse_tape] omits nothing. *)
Lemma has_symbol_length b s : has_symbol b s → String.length b = 1%nat.
Proof.
  induction s as [|a s IH]; simpl; [done|]. intros [<-|H]; [done|by apply IH].
Qed.

Lemma rstrip_no_blank b s : ¬ has_symbol b s → rstrip b s = s.
Proof.
  induction s as [|a s IH]; simpl; [done|].
  intros H. rewrite IH by tauto.
  destruct s; [|done]. rewrite decide_False by tauto. done.
Qed.

Lemma lstrip_no_blank b s : ¬ has_symbol b s → lstrip b s = s.
Proof.
  destruct s as [|a s]; simpl; [done|].
  intros H. rewrite decide_False by tauto. done.
Qed.

Lemma lstrip_all_blank b s : all_blank b s → lstrip b s = "".
Proof.
  induction s as [|a s IH]; simpl; [done|].
  intros [Ha Hs]. rewrite decide_True by done. by apply IH.
Qed.

(** ** The keys of a tape and its rendering *)

Lemma keys_elem (tp : gmap Z string) k : k ∈ keys tp ↔ is_Some (tp !! k).
Proof.
  unfold keys. rewrite list_elem_of_fmap. split.
  - intros ([k' v]&->&H). apply elem_of_map_to_list in H. by exists v.
  - intros [v Hv]. exists (k, v). split; [done|]. by apply elem_of_map_to_list.
Qed.

Lemma foldr_min_spec k ks :
  foldr Z.min k ks ∈ k :: ks ∧ ∀ x, x ∈ k :: ks → foldr Z.min k ks ≤ x.
Proof.
  induction ks as [|y ks [IHin IHle]]; simpl.
  - split; [by left|]. intros x Hx. apply list_elem_of_singleton in Hx. lia.
  - split.
    + destruct (Z.min_spec y (foldr Z.min k ks)) as [[_ ->]|[_ ->]].
      * right. by left.
      * apply elem_of_cons in IHin as [->|Hin]; [by left|]. by do 2 right.
    + intros x Hx.
      assert (x = y ∨ x ∈ k :: ks) as [->|Hx'].
      { rewrite !elem_of_cons in Hx. rewrite elem_of_cons. tauto. }
      * lia.
      * specialize (IHle x Hx'). lia.
Qed.

Lemma foldr_max_spec k ks :
  foldr Z.max k ks ∈ k :: ks ∧ ∀ x, x ∈ k :: ks → x ≤ foldr Z.max k ks.
Proof.
  induction ks as [|y ks [IHin IHle]]; simpl.
  - split; [by left|]. intros x Hx. apply list_elem_of_singleton in Hx. lia.
  - split.
    + destruct (Z.max_spec y (foldr Z.max k ks)) as [[_ ->]|[_ ->]].
      * apply elem_of_cons in IHin as [->|Hin]; [by left|]. by do 2 right.
      * right. by left.
    + intros x Hx.
      assert (x = y ∨ x ∈ k :: ks) as [->|Hx'].
      { rewrite !elem_of_cons in Hx. rewrite elem_of_cons. tauto. }
      * lia.
      * specialize (IHle x Hx'). lia.
Qed.

Lemma tape_to_string_empty (tp : gmap Z string) b :
  (∀ k, tp !! k = None) → tape_to_string tp b = "".
Proof.
  intros Hnone. unfold tape_to_string.
  destruct (keys tp) as [|k ks] eqn:Hkeys; [done|].
  assert (is_Some (tp !! k)) as [v Hv].
  { apply keys_elem. rewrite Hkeys. by left. }
  by rewrite Hnone in Hv.
Qed.

(** When [lo] and [hi] are the least and the greatest occupied positions, the
    rendering is the cells from [lo] to [hi]. *)
Lemma tape_to_string_bounds (tp : gmap Z string) b lo hi :
  is_Some (tp !! lo) → is_Some (tp !! hi) →
  (∀ k, is_Some (tp !! k) → lo ≤ k ≤ hi) →
  tape_to_string tp b
  = join ((λ i, default b (tp !! i)) <$> seqZ lo (hi + 1 - lo)).
Proof.
  intros Hlo Hhi Hall. unfold tape_to_string.
  destruct (keys tp) as [|k ks] eqn:Hkeys.
  { apply keys_elem in Hlo. rewrite Hkeys in Hlo. by apply elem_of_nil in Hlo. }
  destruct (foldr_min_spec k ks) as [Hmin_in Hmin_le].
  destruct (foldr_max_spec k ks) as [Hmax_in Hmax_le].
  rewrite <- Hkeys in Hmin_in, Hmin_le, Hmax_in, Hmax_le.
  assert (foldr Z.min k ks = lo) as ->.
  { apply keys_elem, Hall in Hmin_in. apply keys_elem, Hmin_le in Hlo. lia. }
  assert (foldr Z.max k ks = hi) as ->.
  { apply keys_elem, Hall in Hmax_in. apply keys_elem, Hmax_le in Hhi. lia. }
  done.
Qed.

(** ** The cells of a parsed tape *)

Lemma parse_from_lookup i s b (tp : gmap Z string) k :
  parse_from i s b tp !! k =
  match (if decide (i ≤ k) then String.get (Z.to_nat (k - i)) s else None) with
  | Some a => if decide (char a ≠ b) then Some (char a) else tp !! k
  | None => tp !! k
  end.
Proof.
  revert i tp. induction s as [|a s IH]; intros i tp; simpl.
  - by case_decide.
  - rewrite IH. clear IH.
    destruct (decide (i ≤ k)) as [Hik|Hik].
    + destruct (decide (i = k)) as [->|Hne].
      * rewrite decide_False by lia. rewrite Z.sub_diag. simpl.
        case_decide; [by rewrite lookup_insert_eq|done].
      * rewrite decide_True by lia.
        replace (Z.to_nat (k - i)) with (S (Z.to_nat (k - (i + 1)))) by lia.
        assert (Hother : (if decide (char a ≠ b) then <[i:=char a]> tp else tp) !! k
                         = tp !! k).
        { case_decide; [by rewrite lookup_insert_ne|done]. }
        by rewrite Hother.
    + rewrite decide_False by lia.
      case_decide; [by rewrite lookup_insert_ne by lia|done].
Qed.

Lemma parse_tape_lookup s b k :
  parse_tape s b !! k =
  match (if decide (0 ≤ k) then String.get (Z.to_nat k) s else None) with
  | Some a => if decide (char a ≠ b) then Some (char a) else None
  | None => None
  end.
Proof.
  unfold parse_tape. rewrite parse_from_lookup, Z.sub_0_r, lookup_empty.
  done.
Qed.

Lemma parse_tape_lookup_nat s b n :
  parse_tape s b !! Z.of_nat n =
  match String.get n s with
  | Some a => if decide (char a ≠ b) then Some (char a) else None
  | None => None
  end.
Proof.
  rewrite parse_tape_lookup, decide_True by lia. by rewrite Nat2Z.id.
Qed.

Lemma parse_tape_lookup_some s b k v :
  parse_tape s b !! k = Some v →
  ∃ n a, k = Z.of_nat n ∧ String.get n s = Some a ∧ char a ≠ b ∧ v = char a.
Proof.
  rewrite parse_tape_lookup. case_decide as Hk; [|done].
  destruct (String.get (Z.to_nat k) s) as [a|] eqn:Hget; [|done].
  case_decide; [|done]. intros [= <-].
  exists (Z.to_nat k), a. split; [lia|done].
Qed.

Lemma join_chars mid lo (f : Z → string) :
  (∀ j a, String.get j mid = Some a → f (lo + Z.of_nat j) = char a) →
  join (f <$> seqZ lo (Z.of_nat (String.length mid))) = mid.
Proof.
  revert lo. induction mid as [|a mid IH]; intros lo Hf; [done|].
  rewrite seqZ_cons by (simpl; lia). rewrite fmap_cons. simpl join.
  assert (f lo = char a) as ->.
  { rewrite <- (Hf 0%nat a) by done. f_equal. simpl. lia. }
  replace (Z.pred (Z.of_nat (S (String.length mid))))
    with (Z.of_nat (String.length mid)) by lia.
  rewrite IH; [done|].
  intros j x Hj. rewrite <- (Hf (S j) x) by done. f_equal. lia.
Qed.

Lemma get_decomposed pre mid post n :
  String.get n (pre +:+ mid +:+ post) =
  if decide (n < String.length pre)%nat then String.get n pre
  else if decide (n < String.length pre + String.length mid)%nat
       then String.get (n - String.length pre) mid
       else String.get (n - String.length pre - String.length mid) post.
Proof.
  case_decide as Hpre; [by apply get_app_l|].
  assert (String.get n (pre +:+ mid +:+ post)
          = String.get (n - String.length pre) (mid +:+ post)) as ->.
  { rewrite <- (get_app_r (n - String.length pre) pre (mid +:+ post)).
    f_equal. lia. }
  case_decide as Hmid; [apply get_app_l; lia|].
  rewrite <- (get_app_r (n - String.length pre - String.length mid) mid post).
  f_equal. lia.
Qed.

(** The round trip on a string made of blanks, a middle part that neither
    starts nor ends with a blank, and blanks again. *)
Lemma roundtrip_decomposed b pre mid post :
  all_blank b pre → all_blank b post →
  (∀ a r, mid = String a r → char a ≠ b) →
  (mid ≠ "" →
   ∃ a, String.get (String.length mid - 1) mid = Some a ∧ char a ≠ b) →
  tape_to_string (parse_tape (pre +:+ mid +:+ post) b) b = mid.
Proof.
  intros Hpre Hpost Hfirst Hlast.
  assert (Hout : ∀ n a,
    String.get n (pre +:+ mid +:+ post) = Some a → char a ≠ b →
    (String.length pre ≤ n < String.length pre + String.length mid)%nat).
  { intros n a. rewrite get_decomposed. intros Hget Hne.
    destruct (decide (n < String.length pre)%nat).
    { destruct Hne. by apply (all_blank_get b pre n a). }
    destruct (decide (n < String.length pre + String.length mid)%nat); [lia|].
    destruct Hne. by apply (all_blank_get b post _ a Hpost Hget). }
  assert (Hin : ∀ j,
    (j < String.length mid)%nat →
    String.get (String.length pre + j) (pre +:+ mid +:+ post) = String.get j mid).
  { intros j Hj. rewrite get_decomposed.
    rewrite decide_False, decide_True by lia. f_equal. lia. }
  destruct mid as [|a0 r0] eqn:Hmid.
  - apply tape_to_string_empty. intros k.
    destruct (parse_tape _ b !! k) as [v|] eqn:Hk; [|done].
    apply parse_tape_lookup_some in Hk as (n&a&_&Hget&Hne&_).
    apply Hout in Hget; [|done]. simpl in Hget. lia.
  - rewrite <- Hmid in *.
    assert (Hlen : (0 < String.length mid)%nat) by (rewrite Hmid; simpl; lia).
    set (lo := Z.of_nat (String.length pre)).
    set (hi := Z.of_nat (String.length pre + (String.length mid - 1))).
    rewrite (tape_to_string_bounds _ b lo hi).
    + replace (hi + 1 - lo) with (Z.of_nat (String.length mid))
        by (unfold hi, lo; lia).
      apply join_chars. intros j a Hj. unfold lo.
      rewrite <- Nat2Z.inj_add, parse_tape_lookup_nat.
      rewrite Hin by (by eapply get_some_lt). rewrite Hj.
      case_decide as Ha; [done|]. simpl.
      by destruct (decide (char a = b)).
    + unfold lo. rewrite <- (Nat.add_0_r (String.length pre)).
      rewrite parse_tape_lookup_nat, Hin by done.
      rewrite Hmid. simpl. rewrite decide_True; [done|]. by eapply Hfirst.
    + unfold hi. rewrite parse_tape_lookup_nat, Hin by lia.
      destruct Hlast as (a&Ha&Hne); [by rewrite Hmid|].
      rewrite Ha. by rewrite decide_True.
    + intros k [v Hk].
      apply parse_tape_lookup_some in Hk as (n&a&->&Hget&Hne&_).
      apply Hout in Hget; [|done]. unfold lo, hi. lia.
Qed.

(** The round trip strips the blanks at both ends and nothing else. *)
Lemma roundtrip_strip s b :
  ∃ pre post,
    s = pre +:+ strip b s +:+ post
    ∧ all_blank b pre ∧ all_blank b post
    ∧ (∀ a r, strip b s = String a r → char a ≠ b)
    ∧ (strip b s ≠ "" →
       ∃ a, String.get (String.length (strip b s) - 1) (strip b s) = Some a
            ∧ char a ≠ b)
    ∧ tape_to_string (parse_tape s b) b = strip b s.
Proof.
  destruct (lstrip_spec b s) as (pre&Hs&Hpre&Hhd).
  destruct (rstrip_spec b (lstrip b s)) as (post&Hl&Hpost&Hlast&Hkeep).
  fold (strip b s) in Hl, Hlast, Hkeep.
  assert (Hfirst : ∀ a r, strip b s = String a r → char a ≠ b).
  { intros a r Hmid. destruct (lstrip b s) as [|a' l'] eqn:Hlstrip.
    - by rewrite Hmid in Hl.
    - rewrite Hmid in Hl. rewrite app_String in Hl. injection Hl as -> _.
      by eapply Hhd. }
  exists pre, post.
  assert (Heq : s = pre +:+ strip b s +:+ post) by (by rewrite <- Hl).
  split; [done|]. split; [done|]. split; [done|]. split; [done|].
  split; [done|].
  rewrite Heq at 1. by apply roundtrip_decomposed.
Qed.

(** ** The round trip through a tape *)

(** C5: for a non-empty string [s] in which the blank symbol [b] does not
    occur, rendering the tape parsed from [s] gives [s] back. *)
Theorem roundtrip_no_blank s b :
  s ≠ "" →
  ¬ has_symbol b s →
  tape_to_string (parse_tape s b) b = s.
Proof.
  intros _ Hno.
  destruct (roundtrip_strip s b) as (pre&post&_&_&_&_&_&->).
  unfold strip. rewrite lstrip_no_blank by done. by apply rstrip_no_blank.
Qed.

Lemma roundtrip_no_blank_witness :
  tape_to_string (parse_tape "101" "_") "_" = "101".
Proof.
  apply (roundtrip_no_blank "101" "_").
  - discriminate.
  - simpl. intros [H|[H|[H|H]]]; try discriminate H. exact H.
Defined.

(** C10: for a string [s] in which the blank symbol [b] does occur, the
    round trip gives [s] without its leading and trailing blanks: [s] is a
    run of blanks, then the result, then a run of blanks, and the result
    neither starts nor ends with a blank, so the blanks inside it are kept.
    A string made of blanks only gives the empty string. *)
Theorem roundtrip_with_blank s b :
  has_symbol b s →
  (∃ pre post,
     s = pre +:+ strip b s +:+ post
     ∧ all_blank b pre ∧ all_blank b post
     ∧ (∀ a r, strip b s = String a r → char a ≠ b)
     ∧ (strip b s ≠ "" →
        ∃ a, String.get (String.length (strip b s) - 1) (strip b s) = Some a
             ∧ char a ≠ b)
     ∧ tape_to_string (parse_tape s b) b = strip b s)
  ∧ (all_blank b s → tape_to_string (parse_tape s b) b = "").
Proof.
  intros _. split; [apply roundtrip_strip|].
  intros Hall.
  destruct (roundtrip_strip s b) as (pre&post&_&_&_&_&_&->).
  unfold strip. by rewrite lstrip_all_blank.
Qed.

Lemma roundtrip_with_blank_witness :
  (∃ pre post,
     "__1_1_" = pre +:+ strip "_" "__1_1_" +:+ post
     ∧ all_blank "_" pre ∧ all_blank "_" post
     ∧ (∀ a r, strip "_" "__1_1_" = String a r → char a ≠ "_")
     ∧ (strip "_" "__1_1_" ≠ "" →
        ∃ a, String.get (String.length (strip "_" "__1_1_") - 1)
               (strip "_" "__1_1_") = Some a
             ∧ char a ≠ "_")
     ∧ tape_to_string (parse_tape "__1_1_" "_") "_" = strip "_" "__1_1_")
  ∧ (all_blank "_" "__1_1_" → tape_to_string (parse_tape "__1_1_" "_") "_" = "").
Proof.
  apply (roundtrip_with_blank "__1_1_" "_").
  simpl. left. reflexivity.
Defined.

(** The rendering of that tape, evaluated. *)
Example roundtrip_with_blank_example :
  tape_to_string (parse_tape "__1_1_" "_") "_" = "1_1"
  ∧ strip "_" "__1_1_" = "1_1"
  ∧ tape_to_string (parse_tape "___" "_") "_" = "".
Proof. vm_compute. done. Qed.

(** * Further properties of the code *)

(** ** One pass of the loop, field by field *)

Lemma loop_body_next m trace c c' :
  loop_body m trace c = Next c' →
  ∃ q w d,
    transitions m !! key_of (c_state c) (read_cell m (c_tape c) (c_head c))
    = Some [q; w; d]
    ∧ c_tape c' = write_cell m (c_tape c) (c_head c) w
    ∧ c_head c' = move_head d (c_head c)
    ∧ c_state c' = q
    ∧ c_steps c' = c_steps c + 1
    ∧ c_out c' =
      if trace then
        (c_out c ++ [trace_line (c_steps c) (c_state c) (c_head c)
                       (read_cell m (c_tape c) (c_head c)) w d q])%list
      else c_out c.
Proof.
  intros H.
  destruct (loop_body_cases m trace c) as [[_ E]|[(q&w&d&Hk&E)|(v&_&_&E)]];
    rewrite E in H; simplify_eq.
  by exists q, w, d.
Qed.

Lemma move_head_near d h : h - 1 ≤ move_head d h ≤ h + 1.
Proof. unfold move_head. repeat case_decide; lia. Qed.

Lemma write_cell_other m (tp : gmap Z string) h w p :
  p ≠ h → write_cell m tp h w !! p = tp !! p.
Proof.
  intros Hp. unfold write_cell.
  case_decide; [by rewrite lookup_delete_ne|by rewrite lookup_insert_ne].
Qed.

Lemma write_cell_lookup m (tp : gmap Z string) h w p v :
  write_cell m tp h w !! p = Some v →
  tp !! p = Some v ∨ (p = h ∧ v = w ∧ w ≠ blank m).
Proof.
  destruct (decide (p = h)) as [->|Hp].
  - unfold write_cell. case_decide.
    + by rewrite lookup_delete_eq.
    + rewrite lookup_insert_eq. intros [= <-]. by right.
  - rewrite write_cell_other by done. by left.
Qed.

(** ** What the loop keeps *)

Lemma loop_exec_steps_max m max_steps trace c r :
  loop_exec m max_steps trace c r →
  c_steps (snd r) ≤ Z.max (c_steps c) max_steps.
Proof.
  induction 1 as [| | |c c' r Hc Hb _ IH]; simpl; try lia.
  apply loop_body_steps in Hb. apply loop_cond_true in Hc as [_ Hc]. lia.
Qed.

Lemma loop_exec_out_length m max_steps trace c r :
  loop_exec m max_steps trace c r →
  Z.of_nat (length (c_out (snd r)))
  = Z.of_nat (length (c_out c))
    + (if trace then c_steps (snd r) - c_steps c else 0).
Proof.
  induction 1 as [c _|c _ _|c e _ _|c c' r _ Hb _ IH]; simpl;
    try (destruct trace; lia).
  apply loop_body_next in Hb as (q&w&d&_&_&_&_&Hs&Ho).
  rewrite IH, Ho, Hs. destruct trace; [|lia].
  rewrite List.length_app. simpl. lia.
Qed.

Lemma loop_exec_out_prefix m max_steps trace c r :
  loop_exec m max_steps trace c r → c_out c `prefix_of` c_out (snd r).
Proof.
  induction 1 as [| | |c c' r _ Hb _ IH]; simpl; try done.
  apply loop_body_next in Hb as (q&w&d&_&_&_&_&_&Ho).
  etrans; [|exact IH]. rewrite Ho. destruct trace; [|done].
  by apply prefix_app_r.
Qed.

(** After [d] passes the head is within [d] cells of where it was, and the
    cells at distance [d] or more are untouched. *)
Lemma loop_exec_local m max_steps trace c r :
  loop_exec m max_steps trace c r →
  Z.abs (c_head (snd r) - c_head c) ≤ c_steps (snd r) - c_steps c
  ∧ ∀ p, c_steps (snd r) - c_steps c ≤ Z.abs (p - c_head c) →
         c_tape (snd r) !! p = c_tape c !! p.
Proof.
  induction 1 as [| | |c c' r _ Hb Hex [IHh IHt]]; simpl;
    try (split; [lia|done]).
  pose proof (loop_exec_steps_ge _ _ _ _ _ Hex) as Hge.
  apply loop_body_next in Hb as (q&w&d&_&Ht&Hh&_&Hs&_).
  pose proof (move_head_near d (c_head c)) as Hnear.
  rewrite Hh, Hs in *. split; [lia|].
  intros p Hp. rewrite IHt by lia. rewrite Ht. apply write_cell_other. lia.
Qed.

(** The state is the one on entry or the target of a transition; a cell
    holds what it held on entry or a non-blank symbol written by a
    transition. *)
Lemma loop_exec_closure m max_steps trace c r :
  loop_exec m max_steps trace c r →
  (c_state (snd r) = c_state c
   ∨ ∃ key w d, transitions m !! key = Some [c_state (snd r); w; d])
  ∧ ∀ p v, c_tape (snd r) !! p = Some v →
           c_tape c !! p = Some v
           ∨ (v ≠ blank m ∧ ∃ key q d, transitions m !! key = Some [q; v; d]).
Proof.
  induction 1 as [| | |c c' r _ Hb _ [IHq IHt]]; simpl;
    try (split; [by left|by left]).
  apply loop_body_next in Hb as (q&w&d&Hk&Ht&_&Hq&_&_).
  split.
  - destruct IHq as [IHq|IHq]; [|by right].
    right. rewrite IHq, Hq. by eexists _, _, _.
  - intros p v Hv. destruct (IHt p v Hv) as [Hv'|Hv']; [|by right].
    rewrite Ht in Hv'. apply write_cell_lookup in Hv' as [?|(_&->&Hw)]; [by left|].
    right. split; [done|]. by eexists _, _, _.
Qed.

Lemma run_some m tp max_steps trace :
  ∃ res out, run m tp max_steps trace = Some (res, out).
Proof.
  destruct (run_loop_total _ m max_steps trace _ (init_fuel m tp max_steps))
    as [r Hr].
  apply run_loop_exec, run_intro in Hr. eauto.
Qed.

Lemma run_returned_inv m tp max_steps trace t s q out :
  run m tp max_steps trace = Some (Returned t s q, out) →
  ∃ r, loop_exec m max_steps trace (init m tp) r
       ∧ (∀ e, fst r ≠ Unwound e)
       ∧ t = c_tape (snd r) ∧ s = c_steps (snd r) ∧ q = c_state (snd r)
       ∧ out = c_out (snd r).
Proof.
  intros H. destruct (run_inv _ _ _ _ _ _ H) as (r&Hex&Hres&Hout).
  symmetry in Hres. apply result_of_returned in Hres as (?&?&?&?).
  by exists r.
Qed.

(** ** Runs that execute no step *)

(** X1: a run that returns has executed no step exactly when the start state
    is the halting state, or the budget is zero or negative, or there is no
    transition for the start state and the symbol under the head at
    position 0; it then returns the tape it was given and the start state,
    and has printed nothing. *)
Theorem run_no_step m tp max_steps trace t s q out :
  run m tp max_steps trace = Some (Returned t s q, out) →
  (s = 0 ↔
   start m = halt m ∨ max_steps ≤ 0
   ∨ transitions m !! key_of (start m) (read_cell m tp 0) = None)
  ∧ (s = 0 → t = tp ∧ q = start m ∧ out = []).
Proof.
  intros H.
  apply run_returned_inv in H as (r&Hex&Hnr&->&->&->&->).
  inversion Hex as [c Hc|c Hc Hb|c e Hc Hb|c c' r' Hc Hb Hex']; subst; simpl.
  - split; [|done]. split; [|done]. intros _.
    apply loop_cond_false in Hc as [Hc|Hc]; simpl in Hc; [by left|right; by left].
  - split; [|done]. split; [|done]. intros _. do 2 right.
    destruct (loop_body_cases m trace (init m tp))
      as [[Hk _]|[(?&?&?&_&E)|(?&_&_&E)]]; [done|congruence..].
  - by destruct (Hnr e).
  - pose proof (loop_exec_steps_ge _ _ _ _ _ Hex') as Hge.
    apply loop_body_next in Hb as (q&w&d&Hk&_&_&_&Hs&_).
    simpl in Hs, Hk. rewrite Hs in Hge.
    apply loop_cond_true in Hc as [Hq Hm]. simpl in Hq, Hm.
    split; [|lia]. split; [lia|].
    intros [?|[?|Hnone]]; [done|lia|]. by rewrite Hnone in Hk.
Qed.

Lemma run_no_step_witness :
  (0 = 0 ↔
   start stuck = halt stuck ∨ 5 ≤ 0
   ∨ transitions stuck !! key_of (start stuck) (read_cell stuck ∅ 0) = None)
  ∧ (0 = 0 → (∅ : gmap Z string) = ∅ ∧ "q0" = start stuck ∧ @nil string = []).
Proof.
  apply (run_no_step stuck ∅ 5 false ∅ 0 "q0" []).
  vm_compute. reflexivity.
Defined.

(** ** Step count and trace *)

(** X2: the step count returned lies between 0 and the budget (0 for a
    negative budget), and the number of lines printed by the loop is the
    step count when tracing is on and zero when it is off. *)
Theorem run_steps_and_trace m tp max_steps trace t s q out :
  run m tp max_steps trace = Some (Returned t s q, out) →
  0 ≤ s ≤ Z.max 0 max_steps
  ∧ Z.of_nat (length out) = (if trace then s else 0).
Proof.
  intros H.
  apply run_returned_inv in H as (r&Hex&_&_&->&_&->).
  pose proof (loop_exec_steps_ge _ _ _ _ _ Hex) as Hge.
  pose proof (loop_exec_steps_max _ _ _ _ _ Hex) as Hmax.
  pose proof (loop_exec_out_length _ _ _ _ _ Hex) as Hout.
  simpl in *. split; [lia|]. rewrite Hout. destruct trace; lia.
Qed.

Lemma run_steps_and_trace_witness :
  0 ≤ 4 ≤ Z.max 0 10
  ∧ Z.of_nat (length
      ["[step 0] state=add head=0 read=1 -> write=1 move=R next=add";
       "[step 1] state=add head=1 read=1 -> write=1 move=R next=add";
       "[step 2] state=add head=2 read=1 -> write=1 move=R next=add";
       "[step 3] state=add head=3 read=B -> write=1 move=S next=done"])
    = (if true then 4 else 0).
Proof.
  apply (run_steps_and_trace incrementer (parse_tape "111" "B") 10 true
           (parse_tape "1111" "B") 4 "done").
  vm_compute. reflexivity.
Defined.

(** X3: a run of [s] steps leaves every cell at a position [p] with
    [|p| >= s] as it was: the head starts at 0 and moves by at most one cell
    per step, and only the cell under the head is written. *)
Theorem run_local m tp max_steps trace t s q out :
  run m tp max_steps trace = Some (Returned t s q, out) →
  ∀ p, s ≤ Z.abs p → t !! p = tp !! p.
Proof.
  intros H p Hp.
  apply run_returned_inv in H as (r&Hex&_&->&->&_&_).
  destruct (loop_exec_local _ _ _ _ _ Hex) as [_ Hfar]. simpl in Hfar.
  apply Hfar. by rewrite !Z.sub_0_r.
Qed.

Lemma run_local_witness :
  parse_tape "1111" "B" !! (-4) = parse_tape "111" "B" !! (-4).
Proof.
  apply (run_local incrementer (parse_tape "111" "B") 10 false
           (parse_tape "1111" "B") 4 "done" []).
  - vm_compute. reflexivity.
  - lia.
Defined.

(** X4: with the same trace flag, the lines printed under a budget are the
    first lines printed under any larger budget. *)
Theorem run_trace_prefix m tp m1 m2 trace res1 out1 :
  run m tp m1 trace = Some (res1, out1) →
  m1 ≤ m2 →
  ∃ res2 out2, run m tp m2 trace = Some (res2, out2) ∧ out1 `prefix_of` out2.
Proof.
  intros H1 Hle.
  destruct (run_some m tp m2 trace) as (res2&out2&H2).
  exists res2, out2. split; [done|].
  destruct (run_inv _ _ _ _ _ _ H1) as (r1&Hex1&_&->).
  destruct (run_inv _ _ _ _ _ _ H2) as (r2&Hex2&_&->).
  apply (loop_exec_out_prefix m m2 trace).
  by eapply loop_exec_resume.
Qed.

Lemma run_trace_prefix_witness :
  ∃ res2 out2,
    run incrementer (parse_tape "111" "B") 10 true = Some (res2, out2)
    ∧ ["[step 0] state=add head=0 read=1 -> write=1 move=R next=add";
       "[step 1] state=add head=1 read=1 -> write=1 move=R next=add"]
      `prefix_of` out2.
Proof.
  apply (run_trace_prefix incrementer (parse_tape "111" "B") 2 10 true
           (Returned (parse_tape "111" "B") 2 "add")).
  - vm_compute. reflexivity.
  - lia.
Defined.

(** X5: the state returned is the start state or the target of a transition
    of the table, and every entry of the tape returned is an entry of the
    tape given, at the same position, or a non-blank symbol that a
    transition of the table writes. *)
Theorem run_closure m tp max_steps trace t s q out :
  run m tp max_steps trace = Some (Returned t s q, out) →
  (q = start m ∨ ∃ key w d, transitions m !! key = Some [q; w; d])
  ∧ ∀ p v, t !! p = Some v →
           tp !! p = Some v
           ∨ (v ≠ blank m ∧ ∃ key q' d, transitions m !! key = Some [q'; v; d]).
Proof.
  intros H.
  apply run_returned_inv in H as (r&Hex&_&->&_&->&_).
  apply (loop_exec_closure _ _ _ _ _ Hex).
Qed.

Lemma run_closure_witness :
  ("done" = start incrementer
   ∨ ∃ key w d, transitions incrementer !! key = Some ["done"; w; d])
  ∧ ∀ p v, parse_tape "1111" "B" !! p = Some v →
           parse_tape "111" "B" !! p = Some v
           ∨ (v ≠ blank incrementer
              ∧ ∃ key q' d, transitions incrementer !! key = Some [q'; v; d]).
Proof.
  apply (run_closure incrementer (parse_tape "111" "B") 10 false
           (parse_tape "1111" "B") 4 "done" []).
  vm_compute. reflexivity.
Defined.

(** ** A table value that is not a triple *)

(** X6: a table value whose length is not three does no harm until its key
    is read: the pass that reads it raises [ValueError] before anything is
    written, moved or counted, so that a run whose first pass reads it raises
    with nothing printed; and [run] raises only if the table has such a value
    under the key of a state and a symbol. *)
Theorem malformed_entry_raises m max_steps trace :
  (∀ c fuel v,
     loop_cond m max_steps c = true →
     transitions m !! key_of (c_state c) (read_cell m (c_tape c) (c_head c))
     = Some v →
     length v ≠ 3%nat →
     loop_body m trace c = Raise ValueError
     ∧ run_loop (S fuel) m max_steps trace c = Some (Unwound ValueError, c))
  ∧ (∀ tp v,
       start m ≠ halt m → 0 < max_steps →
       transitions m !! key_of (start m) (read_cell m tp 0) = Some v →
       length v ≠ 3%nat →
       run m tp max_steps trace = Some (Raised ValueError, []))
  ∧ (∀ tp e out,
       run m tp max_steps trace = Some (Raised e, out) →
       ∃ state symbol v,
         transitions m !! key_of state symbol = Some v ∧ length v ≠ 3%nat).
Proof.
  assert (Hbody : ∀ c v,
    transitions m !! key_of (c_state c) (read_cell m (c_tape c) (c_head c))
    = Some v →
    length v ≠ 3%nat → loop_body m trace c = Raise ValueError).
  { intros c v Hk Hlen.
    destruct (loop_body_cases m trace c) as [[E _]|[(?&?&?&E&_)|(?&_&_&E)]];
      [congruence| |done].
    rewrite E in Hk. by simplify_eq. }
  split; [|split].
  - intros c fuel v Hc Hk Hlen. split; [by eapply Hbody|].
    rewrite run_loop_eq, Hc. by rewrite (Hbody c v).
  - intros tp v Hq Hmax Hk Hlen.
    assert (Hc : loop_cond m max_steps (init m tp) = true).
    { by apply loop_cond_true. }
    by rewrite (run_intro m tp max_steps trace (Unwound ValueError, init m tp)
                  (exec_raise _ _ _ _ _ Hc (Hbody (init m tp) v Hk Hlen))).
  - intros tp e out H.
    destruct (run_inv _ _ _ _ _ _ H) as (r&Hex&Hres&_).
    pose proof (loop_exec_exit _ _ _ _ _ Hex) as Hexit.
    unfold result_of in Hres. destruct (fst r) as [| |e']; try done.
    destruct Hexit as [_ Hb].
    destruct (loop_body_cases m trace (snd r))
      as [[_ E]|[(?&?&?&_&E)|(v&Hk&Hlen&_)]]; [congruence..|].
    by eexists _, _, v.
Qed.

Lemma malformed_entry_raises_witness :
  (loop_body broken false (init broken ∅) = Raise ValueError
   ∧ run_loop 1 broken 5 false (init broken ∅)
     = Some (Unwound ValueError, init broken ∅))
  ∧ run broken ∅ 5 false = Some (Raised ValueError, []).
Proof.
  destruct (malformed_entry_raises broken 5 false) as (Hpass&Hfirst&_).
  split.
  - apply (Hpass (init broken ∅) 0%nat ["qf"; "0"]).
    + reflexivity.
    + reflexivity.
    + simpl. lia.
  - apply (Hfirst ∅ ["qf"; "0"]).
    + discriminate.
    + lia.
    + reflexivity.
    + simpl. lia.
Defined.

(** ** The entries of a parsed tape *)

(** X7: the tape parsed from [s] has an entry at [k] exactly when [k] is the
    index of a character of [s] other than the blank, and the entry is that
    character; so every key lies between 0 and the length of [s]. *)
Theorem parse_tape_entries s b k :
  (∀ v, parse_tape s b !! k = Some v ↔
        ∃ n a, k = Z.of_nat n ∧ String.get n s = Some a ∧ char a ≠ b
               ∧ v = char a)
  ∧ (is_Some (parse_tape s b !! k) → 0 ≤ k < Z.of_nat (String.length s)).
Proof.
  split.
  - intros v. split; [apply parse_tape_lookup_some|].
    intros (n&a&->&Hget&Hne&->).
    rewrite parse_tape_lookup_nat, Hget. by rewrite decide_True.
  - intros [v Hv]. apply parse_tape_lookup_some in Hv as (n&a&->&Hget&_&_).
    apply get_some_lt in Hget. lia.
Qed.

Lemma all_blank_by_get b s :
  all_blank b s ↔ ∀ n a, String.get n s = Some a → char a = b.
Proof.
  split; [intros H n a; by apply all_blank_get|].
  induction s as [|a s IH]; simpl; [done|].
  intros H. split; [by apply (H 0%nat)|].
  apply IH. intros n x Hx. by apply (H (S n)).
Qed.

(** X8: the tape parsed from [s] is empty exactly when every character of
    [s] is the blank. *)
Theorem parse_tape_empty s b : parse_tape s b = ∅ ↔ all_blank b s.
Proof.
  rewrite all_blank_by_get, map_empty. split.
  - intros Hnone n a Hget. destruct (decide (char a = b)) as [|Hne]; [done|].
    specialize (Hnone (Z.of_nat n)).
    rewrite parse_tape_lookup_nat, Hget in Hnone. by rewrite decide_True in Hnone.
  - intros Hall k. destruct (parse_tape s b !! k) as [v|] eqn:Hk; [|done].
    apply parse_tape_lookup_some in Hk as (n&a&_&Hget&Hne&_).
    destruct Hne. by eapply Hall.
Qed.

(** ** The rendering of a tape *)

Lemma tape_extremes (tp : gmap Z string) :
  tp ≠ ∅ →
  ∃ lo hi, is_Some (tp !! lo) ∧ is_Some (tp !! hi)
           ∧ ∀ k, is_Some (tp !! k) → lo ≤ k ≤ hi.
Proof.
  intros Hne.
  destruct (keys tp) as [|k ks] eqn:Hkeys.
  { destruct Hne. apply map_to_list_empty_iff.
    unfold keys in Hkeys. by apply fmap_nil_inv in Hkeys. }
  destruct (foldr_min_spec k ks) as [Hmin_in Hmin_le].
  destruct (foldr_max_spec k ks) as [Hmax_in Hmax_le].
  rewrite <- Hkeys in Hmin_in, Hmin_le, Hmax_in, Hmax_le.
  exists (foldr Z.min k ks), (foldr Z.max k ks).
  split; [by apply keys_elem|]. split; [by apply keys_elem|].
  intros x Hx. apply keys_elem in Hx. split; [by apply Hmin_le|by apply Hmax_le].
Qed.

(** X9: the rendering of the empty tape is the empty string; the rendering
    of any other tape is the concatenation of the cells from the least to the
    greatest occupied position, an unoccupied cell in between reading as the
    blank, whatever the order in which the dictionary lists its keys. *)
Theorem tape_to_string_cells (tp : gmap Z string) b :
  (tp = ∅ → tape_to_string tp b = "")
  ∧ (tp ≠ ∅ →
     ∃ lo hi,
       is_Some (tp !! lo) ∧ is_Some (tp !! hi)
       ∧ (∀ k, is_Some (tp !! k) → lo ≤ k ≤ hi)
       ∧ tape_to_string tp b
         = join ((λ i, default b (tp !! i)) <$> seqZ lo (hi + 1 - lo))).
Proof.
  split.
  - intros ->. apply tape_to_string_empty. intros k. apply lookup_empty.
  - intros Hne. destruct (tape_extremes tp Hne) as (lo&hi&Hlo&Hhi&Hall).
    exists lo, hi. repeat split; try done; try (by apply Hall).
    by apply tape_to_string_bounds.
Qed.

Lemma tape_to_string_cells_witness :
  ∃ lo hi,
    is_Some (parse_tape "_1_1" "_" !! lo) ∧ is_Some (parse_tape "_1_1" "_" !! hi)
    ∧ (∀ k, is_Some (parse_tape "_1_1" "_" !! k) → lo ≤ k ≤ hi)
    ∧ tape_to_string (parse_tape "_1_1" "_") "_"
      = join ((λ i, default "_" (parse_tape "_1_1" "_" !! i))
                <$> seqZ lo (hi + 1 - lo)).
Proof.
  apply (tape_to_string_cells (parse_tape "_1_1" "_") "_").
  intros H. apply (f_equal (λ tp : gmap Z string, tp !! 1)) in H.
  vm_compute in H. discriminate H.
Defined.

#[local] Instance Z_add_inj d : Inj (=) (=) (Z.add d).
Proof. intros x y. lia. Qed.

Lemma shift_tape_lookup d (tp : gmap Z string) k :
  shift_tape d tp !! k = tp !! (k - d).
Proof.
  unfold shift_tape. replace k with (d + (k - d)) at 1 by lia.
  apply (lookup_kmap (Z.add d)).
Qed.

(** A tape with the same entries [d] cells further renders alike. *)
Lemma tape_to_string_moved d (tp tp' : gmap Z string) b :
  (∀ k, tp' !! k = tp !! (k - d)) →
  tape_to_string tp' b = tape_to_string tp b.
Proof.
  intros Hmoved.
  destruct (decide (tp = ∅)) as [->|Hne].
  { rewrite !tape_to_string_empty; [done|intros; apply lookup_empty|].
    intros k. by rewrite Hmoved, lookup_empty. }
  destruct (tape_extremes tp Hne) as (lo&hi&Hlo&Hhi&Hall).
  rewrite (tape_to_string_bounds tp b lo hi) by done.
  rewrite (tape_to_string_bounds tp' b (d + lo) (d + hi)).
  - replace (d + hi + 1 - (d + lo)) with (hi + 1 - lo) by lia.
    rewrite <- fmap_add_seqZ, <- list_fmap_compose. f_equal.
    apply list_fmap_ext. intros _ i _. simpl.
    rewrite Hmoved. do 2 f_equal. lia.
  - rewrite Hmoved. by replace (d + lo - d) with lo by lia.
  - rewrite Hmoved. by replace (d + hi - d) with hi by lia.
  - intros k. rewrite Hmoved. intros Hk. apply Hall in Hk. lia.
Qed.

(** X10: the rendering does not depend on where the tape lies: moving every
    entry by the same number of cells gives the same string, and the moved
    tape is empty only if the tape is. *)
Theorem tape_to_string_shift d (tp : gmap Z string) b :
  tape_to_string (shift_tape d tp) b = tape_to_string tp b
  ∧ (shift_tape d tp = ∅ ↔ tp = ∅).
Proof.
  split.
  - apply (tape_to_string_moved d). intros k. apply shift_tape_lookup.
  - rewrite !map_empty. split; intros Hnone k.
    + specialize (Hnone (k + d)). rewrite shift_tape_lookup in Hnone.
      by replace (k + d - d) with k in Hnone by lia.
    + by rewrite shift_tape_lookup.
Qed.

(** ** Parsing a rendering *)

Lemma get_join n lo j (f : Z → string) :
  (∀ i, lo ≤ i < lo + Z.of_nat n → String.length (f i) = 1%nat) →
  String.get j (join (f <$> seqZ lo (Z.of_nat n)))
  = if decide (j < n)%nat then String.get 0 (f (lo + Z.of_nat j)) else None.
Proof.
  revert lo j. induction n as [|n IH]; intros lo j Hf.
  - simpl. by destruct j.
  - rewrite seqZ_cons by lia. rewrite fmap_cons. simpl join.
    replace (Z.pred (Z.of_nat (S n))) with (Z.of_nat n) by lia.
    assert (Hlo : String.length (f lo) = 1%nat) by (apply Hf; lia).
    destruct (f lo) as [|a [|a' rest]] eqn:Hflo; try done.
    rewrite app_String. change ("" +:+ ?x) with x.
    destruct j as [|j].
    + rewrite decide_True by lia. simpl. rewrite Z.add_0_r, Hflo. done.
    + simpl String.get. rewrite IH by (intros i Hi; apply Hf; lia).
      replace (Z.succ lo + Z.of_nat j) with (lo + Z.of_nat (S j)) by lia.
      destruct (decide (j < n)%nat).
      * by rewrite decide_True by lia.
      * by rewrite decide_False by lia.
Qed.

(** X11: for a tape without stored blanks whose symbols, like the blank, are
    single characters, parsing the rendering gives the tape back, moved so
    that its least occupied position [lo] is 0; rendering it again gives the
    first rendering. *)
Theorem parse_tape_of_rendering (tp : gmap Z string) b lo :
  tape_ok b tp →
  map_Forall (λ _ v, String.length v = 1%nat) tp →
  String.length b = 1%nat →
  is_Some (tp !! lo) →
  (∀ i, is_Some (tp !! i) → lo ≤ i) →
  (∀ k, parse_tape (tape_to_string tp b) b !! k = tp !! (lo + k))
  ∧ tape_to_string (parse_tape (tape_to_string tp b) b) b = tape_to_string tp b.
Proof.
  intros Hok Hone Hb Hlo Hleast.
  assert (Hne : tp ≠ ∅).
  { intros ->. rewrite lookup_empty in Hlo. by destruct Hlo. }
  destruct (tape_extremes tp Hne) as (lo'&hi&Hlo'&Hhi&Hall).
  assert (lo' = lo) as ->.
  { apply Hall in Hlo. apply Hleast in Hlo'. lia. }
  assert (Hcells : ∀ k, parse_tape (tape_to_string tp b) b !! k = tp !! (lo + k)).
  { intros k.
    rewrite (tape_to_string_bounds tp b lo hi) by done.
    set (f := λ i, default b (tp !! i)).
    assert (Hf : ∀ i, String.length (f i) = 1%nat).
    { intros i. unfold f. destruct (tp !! i) as [v|] eqn:Hi; [|done].
      by apply (Hone i v). }
    assert (Hnone : ∀ i, ¬ lo ≤ i ≤ hi → tp !! i = None).
    { intros i Hi. destruct (tp !! i) as [v|] eqn:Hv; [|done].
      destruct Hi. apply Hall. by exists v. }
    rewrite parse_tape_lookup.
    destruct (decide (0 ≤ k)) as [Hk|Hk]; [|rewrite Hnone by lia; done].
    replace (hi + 1 - lo) with (Z.of_nat (Z.to_nat (hi + 1 - lo)))
      by (apply Hall in Hhi; lia).
    rewrite get_join by (intros; apply Hf).
    destruct (decide (Z.to_nat k < Z.to_nat (hi + 1 - lo))%nat) as [Hin|Hout];
      [|rewrite Hnone by lia; done].
    replace (lo + Z.of_nat (Z.to_nat k)) with (lo + k) by lia.
    specialize (Hf (lo + k)). unfold f in *.
    destruct (tp !! (lo + k)) as [v|] eqn:Hv; simpl in *.
    - destruct v as [|a [|a' rest]]; try done. simpl.
      rewrite decide_True; [done|]. by apply (Hok (lo + k)).
    - destruct b as [|a [|a' rest]]; try done. simpl.
      by rewrite decide_False by (intros H; by apply H). }
  split; [done|].
  apply (tape_to_string_moved (- lo)). intros k. rewrite Hcells. f_equal. lia.
Qed.

Lemma parse_tape_of_rendering_witness :
  (∀ k, parse_tape (tape_to_string (shift_tape 7 (parse_tape "1_1" "_")) "_") "_"
          !! k
        = shift_tape 7 (parse_tape "1_1" "_") !! (7 + k))
  ∧ tape_to_string
      (parse_tape (tape_to_string (shift_tape 7 (parse_tape "1_1" "_")) "_") "_")
      "_"
    = tape_to_string (shift_tape 7 (parse_tape "1_1" "_")) "_".
Proof.
  apply (parse_tape_of_rendering (shift_tape 7 (parse_tape "1_1" "_")) "_" 7).
  - unfold tape_ok. apply (bool_decide_unpack _). vm_compute. reflexivity.
  - apply (bool_decide_unpack _). vm_compute. reflexivity.
  - reflexivity.
  - vm_compute. eexists. reflexivity.
  - intros i. rewrite shift_tape_lookup. intros [v Hv].
    apply parse_tape_lookup_some in Hv as (n&_&Hn&_). lia.
Defined.

(** ** The constructor *)

Lemma tuple_items_ok members acc :
  Forall (λ kv, is_Some (tuple_length kv.2)) members →
  ∃ table, tuple_items members acc = inr table.
Proof.
  revert acc. induction members as [|[key value] rest IH]; intros acc Hall; simpl.
  - by eexists.
  - apply Forall_cons in Hall as [[n Hn] Hrest].
    destruct value; try done; simpl; by apply IH.
Qed.

Lemma tuple_items_error members acc e :
  tuple_items members acc = inl e → e = TypeError.
Proof.
  revert acc. induction members as [|[key value] rest IH]; intros acc; simpl.
  - done.
  - destruct value; simpl; try (by intros [= <-]); apply IH.
Qed.

Lemma head_filter_cons {A} (P : A → Prop) `{∀ x, Decision (P x)} x l :
  head (filter P (x :: l)) = if decide (P x) then Some x else head (filter P l).
Proof. rewrite filter_cons. by case_decide. Qed.

Lemma first_missing_eq d :
  first_missing d =
  if decide (d !! "states" = None) then Some "states"
  else if decide (d !! "alphabet" = None) then Some "alphabet"
  else if decide (d !! "blank" = None) then Some "blank"
  else if decide (d !! "transitions" = None) then Some "transitions"
  else if decide (d !! "start" = None) then Some "start"
  else if decide (d !! "halt" = None) then Some "halt"
  else None.
Proof. unfold first_missing, init_keys. by rewrite !head_filter_cons. Qed.

(** X12: [__init__] raises [KeyError] for a key only if it is the first of
    states, alphabet, blank, transitions, start, halt that the description
    lacks; and when the value under "transitions", if any, is an object with
    iterable values, the first missing key does raise [KeyError]. *)
Theorem init_key_error d k :
  (TuringMachine_init d = inl (KeyError k) → first_missing d = Some k)
  ∧ (transitions_iterable d → first_missing d = Some k →
     TuringMachine_init d = inl (KeyError k)).
Proof.
  rewrite first_missing_eq.
  unfold TuringMachine_init, subscript, transitions_iterable.
  destruct (d !! "states") as [v1|];
    [rewrite decide_False by done; cbn
    |rewrite decide_True by done; cbn; split; [by intros [= <-]|by intros _ [= <-]]].
  destruct (d !! "alphabet") as [v2|];
    [rewrite decide_False by done; cbn
    |rewrite decide_True by done; cbn; split; [by intros [= <-]|by intros _ [= <-]]].
  destruct (d !! "blank") as [v3|];
    [rewrite decide_False by done; cbn
    |rewrite decide_True by done; cbn; split; [by intros [= <-]|by intros _ [= <-]]].
  destruct (d !! "transitions") as [v4|];
    [rewrite decide_False by done; cbn
    |rewrite decide_True by done; cbn; split; [by intros [= <-]|by intros _ [= <-]]].
  destruct (items v4) as [e|members] eqn:Hitems; cbn.
  { split; [destruct v4; simplify_eq/=; done|].
    intros Hit. destruct (Hit v4 eq_refl) as (members&->&_). done. }
  destruct (tuple_items members (Some ∅)) as [e|table] eqn:Htable; cbn.
  { split.
    - apply tuple_items_error in Htable as ->. done.
    - intros Hit. destruct (Hit v4 eq_refl) as (members'&->&Hall).
      simpl in Hitems. simplify_eq.
      destruct (tuple_items_ok members (Some ∅) Hall) as [t Ht]. congruence. }
  destruct (d !! "start") as [v5|];
    [rewrite decide_False by done; cbn
    |rewrite decide_True by done; cbn; split; [by intros [= <-]|by intros _ [= <-]]].
  destruct (d !! "halt") as [v6|];
    [rewrite decide_False by done; cbn
    |rewrite decide_True by done; cbn; split; [by intros [= <-]|by intros _ [= <-]]].
  split; [done|by intros _ ?].
Qed.

Lemma init_key_error_witness :
  TuringMachine_init (delete "start" incrementer_description)
  = inl (KeyError "start").
Proof.
  apply (init_key_error (delete "start" incrementer_description) "start").
  - intros value Hvalue. vm_compute in Hvalue.
    injection Hvalue as <-. eexists. split; [reflexivity|].
    repeat constructor; by eexists.
  - vm_compute. reflexivity.
Defined.

(** What a successful construction has read. *)
Lemma init_inv d m :
  TuringMachine_init d = inr (Some m) →
  ∃ v_states v_alphabet members,
    d !! "states" = Some v_states ∧ as_str_list v_states = Some (states m)
    ∧ d !! "alphabet" = Some v_alphabet
    ∧ as_str_list v_alphabet = Some (alphabet m)
    ∧ d !! "blank" = Some (JStr (blank m))
    ∧ d !! "transitions" = Some (JObj members)
    ∧ tuple_items members (Some ∅) = inr (Some (transitions m))
    ∧ d !! "start" = Some (JStr (start m))
    ∧ d !! "halt" = Some (JStr (halt m)).
Proof.
  unfold TuringMachine_init, subscript.
  destruct (d !! "states") as [v1|]; cbn; [|done].
  destruct (d !! "alphabet") as [v2|]; cbn; [|done].
  destruct (d !! "blank") as [v3|]; cbn; [|done].
  destruct (d !! "transitions") as [v4|]; cbn; [|done].
  destruct v4 as [| | | | |members]; cbn; try done.
  destruct (tuple_items members (Some ∅)) as [e|table] eqn:Htable; cbn; [done|].
  destruct (d !! "start") as [v5|]; cbn; [|done].
  destruct (d !! "halt") as [v6|]; cbn; [|done].
  intros [= H].
  destruct (as_str_list v1) as [st|] eqn:Hst; cbn in H; [|done].
  destruct (as_str_list v2) as [al|] eqn:Hal; cbn in H; [|done].
  destruct v3 as [| | |b| |]; cbn in H; try done.
  destruct table as [tr|]; cbn in H; [|done].
  destruct v5 as [| | |s| |]; cbn in H; try done.
  destruct v6 as [| | |h| |]; cbn in H; try done.
  injection H as <-. simpl. by exists v1, v2, members.
Qed.

Lemma tuple_items_none members t : tuple_items members None ≠ inr (Some t).
Proof.
  induction members as [|[key value] rest IH]; simpl; [done|].
  destruct (tuple value) as [e|tv]; cbn; [done|]. exact IH.
Qed.

Lemma tuple_items_cons_inv key value rest acc table :
  tuple_items ((key, value) :: rest) (Some acc) = inr (Some table) →
  ∃ v, tuple value = inr (Some v)
       ∧ tuple_items rest (Some (<[key := v]> acc)) = inr (Some table).
Proof.
  simpl. destruct (tuple value) as [e|[v|]]; cbn; [done| |].
  - intros H. by exists v.
  - intros H. by apply tuple_items_none in H.
Qed.

Lemma tuple_items_lookup members acc table key v :
  NoDup (members.*1) →
  tuple_items members (Some acc) = inr (Some table) →
  table !! key = Some v ↔
  (∃ value, (key, value) ∈ members ∧ tuple value = inr (Some v))
  ∨ ((key ∉ members.*1) ∧ acc !! key = Some v).
Proof.
  revert acc. induction members as [|[k0 v0] rest IH]; intros acc Hnd Hitems.
  - simpl in Hitems. simplify_eq. split.
    + intros H. right. split; [apply not_elem_of_nil|done].
    + intros [(value&Hin&_)|[_ H]]; [by apply elem_of_nil in Hin|done].
  - apply tuple_items_cons_inv in Hitems as (t0&Ht0&Hrest).
    rewrite fmap_cons in Hnd. apply NoDup_cons in Hnd as [Hk0 Hnd].
    rewrite (IH _ Hnd Hrest). clear IH. simpl in Hk0.
    destruct (decide (key = k0)) as [->|Hne].
    + rewrite lookup_insert_eq. split.
      * intros [(value&Hin&_)|[_ [= <-]]].
        -- destruct Hk0. apply list_elem_of_fmap. by exists (k0, value).
        -- left. exists v0. split; [by left|done].
      * intros [(value&Hin&Hv)|[Hnot _]].
        -- right. split; [done|]. apply elem_of_cons in Hin as [[= <-]|Hin].
           ++ congruence.
           ++ destruct Hk0. apply list_elem_of_fmap. by exists (k0, value).
        -- destruct Hnot. rewrite fmap_cons. by left.
    + rewrite lookup_insert_ne by done. split.
      * intros [(value&Hin&Hv)|[Hnot Hacc]].
        -- left. exists value. split; [by right|done].
        -- right. split; [|done]. rewrite fmap_cons. simpl.
           rewrite not_elem_of_cons. done.
      * intros [(value&Hin&Hv)|[Hnot Hacc]].
        -- left. exists value. split; [|done].
           apply elem_of_cons in Hin as [[= -> _]|Hin]; done.
        -- right. split; [|done]. rewrite fmap_cons in Hnot.
           apply not_elem_of_cons in Hnot. tauto.
Qed.

(** X13: a machine built from a description holds the description's blank,
    start and halt, and, the keys of the "transitions" object being distinct,
    its table has an entry under a key exactly when the object has a member
    under that key, the entry being the tuple of the member's value. *)
Theorem init_table d m members :
  TuringMachine_init d = inr (Some m) →
  d !! "transitions" = Some (JObj members) →
  NoDup (members.*1) →
  (∀ key v, transitions m !! key = Some v ↔
            ∃ value, (key, value) ∈ members ∧ tuple value = inr (Some v))
  ∧ d !! "blank" = Some (JStr (blank m))
  ∧ d !! "start" = Some (JStr (start m))
  ∧ d !! "halt" = Some (JStr (halt m)).
Proof.
  intros Hinit Hd Hnd.
  apply init_inv in Hinit as (v1&v2&members'&_&_&_&_&Hb&Hd'&Htable&Hs&Hh).
  rewrite Hd in Hd'. injection Hd' as <-.
  split; [|done].
  intros key v. rewrite (tuple_items_lookup _ _ _ key v Hnd Htable).
  rewrite lookup_empty. split; [|by left].
  intros [?|[_ ?]]; done.
Qed.

Lemma init_table_witness :
  (∀ key v, transitions incrementer !! key = Some v ↔
            ∃ value,
              (key, value) ∈ [("add:1", JArr [JStr "add"; JStr "1"; JStr "R"]);
                              ("add:B", JArr [JStr "done"; JStr "1"; JStr "S"])]
              ∧ tuple value = inr (Some v))
  ∧ incrementer_description !! "blank" = Some (JStr (blank incrementer))
  ∧ incrementer_description !! "start" = Some (JStr (start incrementer))
  ∧ incrementer_description !! "halt" = Some (JStr (halt incrementer)).
Proof.
  apply (init_table incrementer_description incrementer).
  - vm_compute. reflexivity.
  - vm_compute. reflexivity.
  - simpl. apply NoDup_cons. split; [|apply NoDup_singleton].
    rewrite list_elem_of_singleton. discriminate.
Defined.

Lemma list_ascii_length s :
  length (String.list_ascii_of_string s) = String.length s.
Proof. induction s as [|a s IH]; simpl; [done|]. by rewrite IH. Qed.

Lemma tuple_length_some value v :
  tuple value = inr (Some v) → tuple_length value = Some (length v).
Proof.
  destruct value as [| | |s|elems|members]; simpl; try done.
  - intros [= <-]. by rewrite length_fmap, list_ascii_length.
  - intros [= H]. apply length_mapM in H. by rewrite H.
  - intros [= <-]. by rewrite length_fmap.
Qed.

Lemma tuple_items_lengths members acc table :
  tuple_items members (Some acc) = inr (Some table) →
  Forall (λ kv, tuple_length kv.2 = Some 3%nat) members →
  map_Forall (λ _ v, length v = 3%nat) acc →
  map_Forall (λ _ v, length v = 3%nat) table.
Proof.
  revert acc. induction members as [|[k0 v0] rest IH]; intros acc Hitems Hall Hacc.
  - simpl in Hitems. by simplify_eq.
  - apply tuple_items_cons_inv in Hitems as (t0&Ht0&Hrest).
    apply Forall_cons in Hall as [H0 Hall]. simpl in H0.
    apply (IH _ Hrest Hall). apply map_Forall_insert_2; [|done].
    apply tuple_length_some in Ht0. congruence.
Qed.

(** X14: when every value of the "transitions" object of the description
    has exactly three elements, the machine built from it has a table of
    triples, and [run] on it returns, whatever the tape and the budget. *)
Theorem init_then_run d m members :
  TuringMachine_init d = inr (Some m) →
  d !! "transitions" = Some (JObj members) →
  Forall (λ kv, tuple_length kv.2 = Some 3%nat) members →
  well_formed m
  ∧ ∀ tp max_steps trace,
      ∃ t s q out, run m tp max_steps trace = Some (Returned t s q, out).
Proof.
  intros Hinit Hd Hall.
  apply init_inv in Hinit as (v1&v2&members'&_&_&_&_&_&Hd'&Htable&_&_).
  rewrite Hd in Hd'. injection Hd' as <-.
  assert (Hwf : well_formed m).
  { apply (tuple_items_lengths _ _ _ Htable Hall). apply map_Forall_empty. }
  split; [done|]. intros tp max_steps trace. by apply run_returns.
Qed.

Lemma init_then_run_witness :
  well_formed incrementer
  ∧ ∀ tp max_steps trace,
      ∃ t s q out,
        run incrementer tp max_steps trace = Some (Returned t s q, out).
Proof.
  apply (init_then_run incrementer_description incrementer
           [("add:1", JArr [JStr "add"; JStr "1"; JStr "R"]);
            ("add:B", JArr [JStr "done"; JStr "1"; JStr "S"])]).
  - vm_compute. reflexivity.
  - vm_compute. reflexivity.
  - repeat constructor.
Defined.

(** ** The body of [main] *)

Lemma run_immediate m tp max_steps trace :
  start m = halt m ∨ max_steps ≤ 0
  ∨ transitions m !! key_of (start m) (read_cell m tp 0) = None →
  run m tp max_steps trace = Some (Returned tp 0 (start m), []).
Proof.
  intros Hcase.
  destruct (loop_cond m max_steps (init m tp)) eqn:Hc.
  - apply loop_cond_true in Hc as Hc'. simpl in Hc'.
    destruct Hcase as [?|[?|Hk]]; [by destruct Hc'|lia|].
    assert (Hb : loop_body m trace (init m tp) = Break).
    { unfold loop_body. simpl. by rewrite Hk. }
    by rewrite (run_intro m tp max_steps trace (LoopBreak, init m tp)
                  (exec_break _ _ _ _ Hc Hb)).
  - by rewrite (run_intro m tp max_steps trace (LoopCond, init m tp)
                  (exec_cond _ _ _ _ Hc)).
Qed.

(** X15: when the machine executes no step (its start state is its halting
    state, or the budget is not positive, or no transition is defined for the
    start state and the first symbol), [main] prints the start state, a step
    count of 0 and the tape argument without its leading and trailing blanks,
    and ends without an exception. *)
Theorem main_body_no_step utm tape_arg max_steps trace :
  start utm = halt utm ∨ max_steps ≤ 0
  ∨ transitions utm
      !! key_of (start utm) (read_cell utm (parse_tape tape_arg (blank utm)) 0)
    = None →
  main_body utm tape_arg max_steps trace
  = Some (["Final state: " +:+ start utm;
           "Steps executed: 0";
           "Final tape: " +:+ strip (blank utm) tape_arg], None).
Proof.
  intros Hcase. unfold main_body.
  rewrite (run_immediate _ _ _ _ Hcase).
  destruct (roundtrip_strip tape_arg (blank utm)) as (_&_&_&_&_&_&_&->).
  reflexivity.
Qed.

Lemma main_body_no_step_witness :
  main_body incrementer "B11B" 0 true
  = Some (["Final state: " +:+ start incrementer;
           "Steps executed: 0";
           "Final tape: " +:+ strip (blank incrementer) "B11B"], None).
Proof.
  apply (main_body_no_step incrementer "B11B" 0 true).
  right. left. lia.
Defined.

(** ** The size of the tape *)

Lemma write_cell_size m (tp : gmap Z string) h w :
  (size (write_cell m tp h w) ≤ S (size tp))%nat.
Proof.
  unfold write_cell. case_decide.
  - rewrite map_size_delete. destruct (tp !! h); simpl; lia.
  - rewrite map_size_insert. destruct (tp !! h); simpl; lia.
Qed.

Lemma loop_exec_size m max_steps trace c r :
  loop_exec m max_steps trace c r →
  Z.of_nat (size (c_tape (snd r)))
  ≤ Z.of_nat (size (c_tape c)) + (c_steps (snd r) - c_steps c).
Proof.
  induction 1 as [| | |c c' r _ Hb _ IH]; simpl; try lia.
  apply loop_body_next in Hb as (q&w&d&_&Ht&_&_&Hs&_).
  rewrite Ht, Hs in IH.
  pose proof (write_cell_size m (c_tape c) (c_head c) w). lia.
Qed.

(** X16: each step adds at most one entry to the tape: the tape returned
    after [s] steps has at most [s] entries more than the tape given. *)
Theorem run_size m tp max_steps trace t s q out :
  run m tp max_steps trace = Some (Returned t s q, out) →
  Z.of_nat (size t) ≤ Z.of_nat (size tp) + s.
Proof.
  intros H.
  apply run_returned_inv in H as (r&Hex&_&->&->&_&_).
  pose proof (loop_exec_size _ _ _ _ _ Hex) as Hsize. simpl in Hsize. lia.
Qed.

Lemma run_size_witness :
  Z.of_nat (size (parse_tape "1111" "B"))
  ≤ Z.of_nat (size (parse_tape "111" "B")) + 4.
Proof.
  apply (run_size incrementer (parse_tape "111" "B") 10 false
           (parse_tape "1111" "B") 4 "done" []).
  vm_compute. reflexivity.
Defined.

(** ** A blank that is not a single character *)

(** X17: when the blank symbol is not one character long (the empty string,
    or a name such as "blank"), no character of the input equals it:
    [parse_tape] stores every character, and the round trip gives the input
    back unchanged, blanks at the ends included. *)
Theorem roundtrip_long_blank s b :
  String.length b ≠ 1%nat →
  (∀ n a, String.get n s = Some a →
          parse_tape s b !! Z.of_nat n = Some (char a))
  ∧ tape_to_string (parse_tape s b) b = s.
Proof.
  intros Hb.
  assert (Hne : ∀ a, char a ≠ b) by (intros a <-; by destruct Hb).
  split.
  - intros n a Hget. rewrite parse_tape_lookup_nat, Hget.
    by rewrite decide_True.
  - assert (Hno : ¬ has_symbol b s).
    { intros H. by apply has_symbol_length in H. }
    destruct (roundtrip_strip s b) as (_&_&_&_&_&_&_&->).
    unfold strip. rewrite lstrip_no_blank by done. by apply rstrip_no_blank.
Qed.

Lemma roundtrip_long_blank_witness :
  (∀ n a, String.get n "b1b" = Some a →
          parse_tape "b1b" "blank" !! Z.of_nat n = Some (char a))
  ∧ tape_to_string (parse_tape "b1b" "blank") "blank" = "b1b".
Proof.
  apply (roundtrip_long_blank "b1b" "blank").
  simpl. lia.
Defined.
